(** * A shallow embedding of the Sudoku CSP solver of [driver.py]

    The program models a 9x9 Sudoku as a constraint satisfaction problem:
    81 variables named "A1" .. "I9", one string of candidate digits per
    variable, an arc-consistency pass ([AC3]) and a backtracking search
    with forward checking ([BTS]).

    Conventions of the embedding.
    - A Python [str] is a [list ascii]; a one-character string that the
      code uses as a digit is an [ascii].
    - A Python [dict] is an association list in insertion order
      ([dict V]); assignment to an existing key keeps its position, to a
      new key appends, as in Python.
    - A Python [set] is a duplicate-free list.  The order in which a set
      is iterated is not fixed by the language, so every loop over a set
      goes through [set_iter], an arbitrary reordering ([SetOrder]); the
      results below hold for every such order.
    - [while] and recursion run on fuel; [OutOfFuel] is shown not to
      happen on the states the program builds. *)

From Stdlib Require Import Ascii String Bool Arith Lia List Permutation.
Import ListNotations.

(** ** Python values *)

Definition str := list ascii.
Definition py (s : string) : str := list_ascii_of_string s.

Definition cell := str.
Definition arc := (cell * cell)%type.

Definition str_eq_dec : forall a b : str, {a = b} + {a <> b} :=
  list_eq_dec ascii_dec.
Definition arc_eq_dec : forall a b : arc, {a = b} + {a <> b}.
Proof. decide equality; apply str_eq_dec. Defined.

Definition mem {A} (dec : forall a b : A, {a = b} + {a <> b}) (x : A) (l : list A) : bool :=
  if in_dec dec x l then true else false.
Definition mem_str : str -> list str -> bool := mem str_eq_dec.

(** What running a piece of the program gives: a value, a Python
    exception, or the model's fuel running out. *)
Inductive exn := IndexError | ValueError.

Inductive outcome (A : Type) : Type :=
| Ret (a : A)
| Raise (e : exn)
| OutOfFuel.
Arguments Ret {A} a.
Arguments Raise {A} e.
Arguments OutOfFuel {A}.

(** Iteration order of sets. *)
Class SetOrder := {
  set_iter : forall A : Type, list A -> list A;
  set_iter_perm : forall (A : Type) (l : list A), Permutation (set_iter A l) l
}.

#[refine] Instance insertion_order : SetOrder := {| set_iter := fun _ l => l |}.
Proof. intros; apply Permutation_refl. Defined.

(** ** Dictionaries *)

Definition dict (V : Type) : Type := list (cell * V).

Module Dict.
Definition keys {V} (d : dict V) : list cell := map fst d.

Fixpoint lookup {V} (d : dict V) (k : cell) : option V :=
  match d with
  | [] => None
  | (k', v) :: d' => if str_eq_dec k k' then Some v else lookup d' k
  end.

(** [d[k] = v] *)
Fixpoint set {V} (d : dict V) (k : cell) (v : V) : dict V :=
  match d with
  | [] => [(k, v)]
  | (k', v') :: d' =>
      if str_eq_dec k k' then (k', v) :: d' else (k', v') :: set d' k v
  end.

(** [del d[k]]; the program deletes only the key it has just set *)
Fixpoint del {V} (d : dict V) (k : cell) : dict V :=
  match d with
  | [] => []
  | (k', v') :: d' => if str_eq_dec k k' then d' else (k', v') :: del d' k
  end.

(** [d.update(e)] *)
Definition update {V} (d e : dict V) : dict V :=
  fold_left (fun acc kv => set acc (fst kv) (snd kv)) e d.

(** [k in d.keys()] *)
Definition has_key {V} (d : dict V) (k : cell) : bool := mem_str k (keys d).
End Dict.

(** [d[k]] for a dict of strings.  On a missing key Python raises
    [KeyError]; every dict of domains in the program has exactly the 81
    cells as keys ([wf_values] below, kept by every function), so the
    lookup does not miss, and the model gives the empty string there. *)
Definition get (d : dict str) (k : cell) : str :=
  match Dict.lookup d k with Some v => v | None => [] end.

(** ** The board: [rows], [cols], [cross], and the fields of [CSP] *)

Definition rows : str := py "ABCDEFGHI".
Definition cols : str := py "123456789".

(** [cross(X, Y)], with [X] and [Y] strings (sequences of characters). *)
Definition cross (X Y : str) : list cell :=
  flat_map (fun x => map (fun y => [x; y]) Y) X.

(** [self.variables] *)
Definition variables : list cell := cross rows cols.

(** [self.contraint_sets]: the 9 columns, the 9 rows, the 9 blocks. *)
Definition contraint_sets : list (list cell) :=
  map (fun c => cross rows [c]) cols ++
  map (fun r => cross [r] cols) rows ++
  flat_map (fun rs => map (fun cs => cross rs cs) [py "123"; py "456"; py "789"])
           [py "ABC"; py "DEF"; py "GHI"].

(** [self.sets[s]] *)
Definition sets (s : cell) : list (list cell) :=
  filter (fun u => mem_str s u) contraint_sets.

(** [self.neighbors[s] = set(sum(self.sets[s], [])) - set([s])] *)
Definition neighbors (s : cell) : list cell :=
  remove str_eq_dec s (nodup str_eq_dec (concat (sets s))).

(** [self.constraints = {(v, n) for v in variables for n in neighbors[v]}] *)
Definition constraints : list arc :=
  nodup arc_eq_dec (flat_map (fun v => map (fun n => (v, n)) (neighbors v)) variables).

(** The class [CSP] has one mutable field, [values]; [variables],
    [contraint_sets], [sets], [neighbors] and [constraints] are the same
    for every grid and are never assigned after [__init__], so they are
    the constants above, and a CSP object is its [values] dict.
    [CSP(grid)] is then [set_values(grid)]. *)

(** ** Auxiliary functions *)

(** [s.replace(x, '')] for a one-character [x] *)
Definition replace (s : str) (x : ascii) : str :=
  filter (fun c => negb (Ascii.eqb c x)) s.

(** [set(s)] for a string [s]: its characters, as one-character strings *)
Definition set_of_str (s : str) : list str :=
  nodup str_eq_dec (map (fun c => [c]) s).

(** [A - B] on sets *)
Definition set_diff {A} (dec : forall a b : A, {a = b} + {a <> b}) (X Y : list A) : list A :=
  filter (fun a => negb (mem dec a Y)) X.

(** [min(d, key=d.get)]: the first key with the least value;
    [ValueError] on an empty dict. *)
Definition py_min (d : dict nat) : outcome cell :=
  match d with
  | [] => Raise ValueError
  | kv :: d' =>
      Ret (fst (fold_left (fun best kv' => if snd kv' <? snd best then kv' else best) d' kv))
  end.

Definition select_next_var (assignment : dict ascii) (vals : dict str) : outcome cell :=
  let unassigned_vars : dict nat :=
    map (fun sqr => (sqr, length (get vals sqr)))
        (filter (fun sqr => negb (Dict.has_key assignment sqr)) (Dict.keys vals)) in
  py_min unassigned_vars.

Fixpoint set_values_loop (grid : str) (vs : list cell) (i : nat) (values : dict str)
  : outcome (dict str) :=
  match vs with
  | [] => Ret values
  | v :: vs' =>
      match nth_error grid i with
      | None => Raise IndexError
      | Some ch =>
          let values' :=
            if negb (Ascii.eqb ch "0") then Dict.set values v [ch]
            else Dict.set values v cols in
          set_values_loop grid vs' (S i) values'
      end
  end.

Definition set_values (grid : str) : outcome (dict str) :=
  set_values_loop grid (cross rows cols) 0 [].

Definition CSP (grid : str) : outcome (dict str) := set_values grid.

Definition AC_constraint_check (vals : dict str) (x : ascii) (Xi Xj : cell) : bool :=
  forallb (fun neighbor => negb (mem_str Xj (neighbors Xi) && negb (Ascii.eqb neighbor x)))
          (get vals Xj).

Definition completed (assignment : dict ascii) : bool :=
  forallb (fun k => mem_str k (cross rows cols)) (Dict.keys assignment) &&
  forallb (fun c => mem_str c (Dict.keys assignment)) (cross rows cols).

Definition solved (vals : dict str) : bool :=
  forallb (fun c => negb (1 <? length (get vals c))) (cross rows cols).

Definition write (vals : dict str) : str :=
  fold_left (fun output c => output ++ get vals c) (cross rows cols) [].

Inductive bt_result := BT_True | BT_fail.

Section Solver.
Context {O : SetOrder}.

Definition forward_check (vals : dict str) (x : ascii) (Xi : cell) : dict str :=
  fold_left (fun v neighbor => Dict.set v neighbor (replace (get v neighbor) x))
            (set_iter _ (neighbors Xi))
            (Dict.set vals Xi [x]).

Definition BT_constraint_check (x : ascii) (Xi : cell) (assignment : dict ascii) : bool :=
  forallb (fun neighbor =>
             match Dict.lookup assignment neighbor with
             | Some y => negb (Ascii.eqb y x)
             | None => true
             end)
          (set_iter _ (neighbors Xi)).

(** ** AC3 *)

Definition revise (vals : dict str) (Xi Xj : cell) : bool * dict str :=
  let values := nodup ascii_dec (get vals Xi) in
  fold_left (fun (st : bool * dict str) x =>
               if AC_constraint_check (snd st) x Xi Xj
               then (true, Dict.set (snd st) Xi (replace (get (snd st) Xi) x))
               else st)
            (set_iter _ values) (false, vals).

(** The arcs put back on the queue after [Xi] was revised against [Xj]:
    [(Xk, Xi) for Xk in csp.neighbors[Xi] - set(Xj)]. *)
Definition requeue (Xi Xj : cell) : list arc :=
  map (fun Xk => (Xk, Xi))
      (set_iter _ (set_diff str_eq_dec (neighbors Xi) (set_of_str Xj))).

Fixpoint AC3_loop (fuel : nat) (q : list arc) (vals : dict str)
  : outcome (bool * dict str) :=
  match fuel with
  | 0 => OutOfFuel
  | S fuel' =>
      match q with
      | [] => Ret (true, vals)
      | (Xi, Xj) :: q' =>
          let (revised, vals') := revise vals Xi Xj in
          if revised then
            if length (get vals' Xi) =? 0 then Ret (false, vals')
            else AC3_loop fuel' (q' ++ requeue Xi Xj) vals'
          else AC3_loop fuel' q' vals'
      end
  end.

(** Number of candidates left on the whole board. *)
Definition candidates (vals : dict str) : nat :=
  list_sum (map (fun kv => length (snd kv)) vals).

(** The fuel is more than the loop can use ([AC3_terminates]). *)
Definition AC3 (vals : dict str) : outcome (bool * dict str) :=
  let q := set_iter _ constraints in
  AC3_loop (S (length q + 20 * candidates vals)) q vals.

(** ** BTS *)

(** The [for x in csp.values[Xi]] loop of [backtrack]; [rec] is the
    recursive call and [domain] the snapshot. *)
Fixpoint try_values
    (rec : dict ascii -> dict str -> outcome (bt_result * dict ascii * dict str))
    (Xi : cell) (domain : dict str) (xs : list ascii)
    (assignment : dict ascii) (vals : dict str)
  : outcome (bt_result * dict ascii * dict str) :=
  match xs with
  | [] => Ret (BT_fail, assignment, vals)
  | x :: xs' =>
      if BT_constraint_check x Xi assignment then
        match rec (Dict.set assignment Xi x) (forward_check vals x Xi) with
        | Ret (BT_fail, assignment', vals') =>
            try_values rec Xi domain xs' (Dict.del assignment' Xi) (Dict.update vals' domain)
        | r => r
        end
      else try_values rec Xi domain xs' assignment vals
  end.

Fixpoint backtrack (fuel : nat) (assignment : dict ascii) (vals : dict str)
  : outcome (bt_result * dict ascii * dict str) :=
  match fuel with
  | 0 => OutOfFuel
  | S fuel' =>
      if completed assignment then Ret (BT_True, assignment, vals)
      else
        match select_next_var assignment vals with
        | Ret Xi => try_values (backtrack fuel') Xi vals (get vals Xi) assignment vals
        | Raise e => Raise e
        | OutOfFuel => OutOfFuel
        end
  end.

(** [backtrack({}, csp)]; the recursion is at most 81 deep ([backtrack_total]). *)
Definition BTS (vals : dict str) : outcome (bt_result * dict ascii * dict str) :=
  backtrack (S (length variables)) [] vals.

(** ** The solver *)

Definition solver (given_sudoku_board : dict str) : outcome str :=
  match AC3 given_sudoku_board with
  | Ret (_, vals1) =>
      if solved vals1 then Ret (write vals1 ++ py " AC3")
      else
        match BTS vals1 with
        | Ret (_, _, vals2) => Ret (write vals2 ++ py " BTS")
        | Raise e => Raise e
        | OutOfFuel => OutOfFuel
        end
  | Raise e => Raise e
  | OutOfFuel => OutOfFuel
  end.

(** The script: build the CSP from the grid, run the solver. *)
Definition main (grid : str) : outcome str :=
  match CSP grid with
  | Ret given_sudoku_board => solver given_sudoku_board
  | Raise e => Raise e
  | OutOfFuel => OutOfFuel
  end.
End Solver.

(** * Vocabulary of the specification *)

(** ** States of the program *)

(** The dict of domains has the 81 cells as its keys, in the order of
    [cross(rows, cols)]: what [set_values] builds, and what every
    function of the program keeps. *)
Definition wf_values (vals : dict str) : Prop := Dict.keys vals = variables.

(** The domain [set_values] gives to a cell whose grid character is [ch]. *)
Definition initial_domain (ch : ascii) : str :=
  if Ascii.eqb ch "0" then cols else [ch].

(** The board of a grid that [CSP] accepts. *)
Definition board_of (grid : str) : dict str :=
  match CSP grid with Ret b => b | _ => [] end.

(** An arc of the board: a cell and one of its neighbors. *)
Definition is_arc (a : arc) : Prop :=
  In (fst a) variables /\ In (snd a) (neighbors (fst a)).

(** ** Runs of the [while] loop of [AC3] *)

(** A configuration of the loop is the queue and the domains.
    [drains q vals vals'] says that from [(q, vals)] the loop empties the
    queue, no revision leaving its cell without candidates, and ends with
    the domains [vals']; [wiped q vals vals'] says that some revision
    leaves its cell without candidates, [vals'] being the domains right
    after that revision. *)
Inductive drains {O : SetOrder} : list arc -> dict str -> dict str -> Prop :=
| drains_done vals : drains [] vals vals
| drains_unchanged Xi Xj q vals vals' :
    fst (revise vals Xi Xj) = false ->
    drains q (snd (revise vals Xi Xj)) vals' ->
    drains ((Xi, Xj) :: q) vals vals'
| drains_revised Xi Xj q vals vals' :
    fst (revise vals Xi Xj) = true ->
    get (snd (revise vals Xi Xj)) Xi <> [] ->
    drains (q ++ requeue Xi Xj) (snd (revise vals Xi Xj)) vals' ->
    drains ((Xi, Xj) :: q) vals vals'.

Inductive wiped {O : SetOrder} : list arc -> dict str -> dict str -> Prop :=
| wiped_now Xi Xj q vals :
    fst (revise vals Xi Xj) = true ->
    get (snd (revise vals Xi Xj)) Xi = [] ->
    wiped ((Xi, Xj) :: q) vals (snd (revise vals Xi Xj))
| wiped_unchanged Xi Xj q vals vals' :
    fst (revise vals Xi Xj) = false ->
    wiped q (snd (revise vals Xi Xj)) vals' ->
    wiped ((Xi, Xj) :: q) vals vals'
| wiped_revised Xi Xj q vals vals' :
    fst (revise vals Xi Xj) = true ->
    get (snd (revise vals Xi Xj)) Xi <> [] ->
    wiped (q ++ requeue Xi Xj) (snd (revise vals Xi Xj)) vals' ->
    wiped ((Xi, Xj) :: q) vals vals'.

(** ** Invariants of propagation and search *)

(** The domains have all their keys, still hold the digit [sol] gives to
    each cell, and are within the domains [v0]. *)
Definition keeps_solution (v0 : dict str) (sol : cell -> ascii) (v : dict str) : Prop :=
  wf_values v /\
  (forall c, In c variables -> In (sol c) (get v c)) /\
  (forall c, In c variables -> incl (get v c) (get v0 c)).

(** A call that returns ["fail"] leaves the assignment and the domains
    as it found them. *)
Definition restores
    (rec : dict ascii -> dict str -> outcome (bt_result * dict ascii * dict str)) : Prop :=
  forall a v a' v', wf_values v -> rec a v = Ret (BT_fail, a', v') -> a' = a /\ v' = v.

(** The assignment and the domains agree: an assigned cell has its
    digit as its whole domain, assigned neighbors hold different digits,
    and the domains are within the domains [v0] search started from. *)
Definition consistent (v0 : dict str) (a : dict ascii) (v : dict str) : Prop :=
  wf_values v /\
  (forall c x, Dict.lookup a c = Some x -> get v c = [x]) /\
  (forall c d x y, Dict.lookup a c = Some x -> Dict.lookup a d = Some y ->
                   In d (neighbors c) -> x <> y) /\
  (forall c, In c variables -> incl (get v c) (get v0 c)).

(** The search has not left the solution [sol]: every domain still holds
    its digit and every assigned cell has it. *)
Definition follows (sol : cell -> ascii) (a : dict ascii) (v : dict str) : Prop :=
  (forall c, In c variables -> In (sol c) (get v c)) /\
  (forall c x, Dict.lookup a c = Some x -> x = sol c).

(** ** What a solved board is *)

(** Position of a cell in row-major order. *)
Fixpoint index_of (c : cell) (l : list cell) : nat :=
  match l with
  | [] => 0
  | k :: l' => if str_eq_dec c k then 0 else S (index_of c l')
  end.

(** The character of an 81-character board string at a cell. *)
Definition board_at (board : str) (c : cell) : ascii :=
  nth (index_of c variables) board "0"%char.

(** The characters of a board on the cells of a unit. *)
Definition unit_digits (board : str) (u : list cell) : str := map (board_at board) u.

(** In each of the 27 units the digits are a permutation of 1..9. *)
Definition valid_solution (board : str) : Prop :=
  length board = 81 /\
  forall u, In u contraint_sets -> Permutation (unit_digits board u) cols.

(** Every clue of the grid is in the board, at the same position. *)
Definition extends_clues (grid board : str) : Prop :=
  forall i ch, nth_error grid i = Some ch -> ch <> "0"%char -> nth_error board i = Some ch.

(** An input of the solver: 81 characters, each one of '0'..'9'. *)
Definition is_puzzle (grid : str) : Prop :=
  length grid = 81 /\ Forall (fun ch => In ch ("0"%char :: cols)) grid.

Definition solvable (grid : str) : Prop :=
  exists s, valid_solution s /\ extends_clues grid s.

(** Boolean versions, to check concrete boards. *)
Definition valid_solutionb (board : str) : bool :=
  (length board =? 81) &&
  forallb (fun u => forallb (fun d => count_occ ascii_dec (unit_digits board u) d =? 1) cols
                    && (length u =? 9))
          contraint_sets.

Definition extends_cluesb (grid board : str) : bool :=
  (length grid =? length board) &&
  forallb (fun p => Ascii.eqb (fst p) "0" || Ascii.eqb (fst p) (snd p)) (combine grid board).

Definition is_puzzleb (grid : str) : bool :=
  (length grid =? 81) &&
  forallb (fun ch => if in_dec ascii_dec ch ("0"%char :: cols) then true else false) grid.

(** ** Grids and states used as examples *)

(** The puzzle of the end-to-end scenario, and its solution. *)
Definition grid_example : str :=
  py "003020600900305001001806400008102900700000008006708200002609500800203009005010300".
Definition solution_example : str :=
  py "483921657967345821251876493548132976729564138136798245372689514814253769695417382".

(** A grid of 81 characters with a letter in it, and a grid of 82 digits. *)
Definition grid_with_letter : str :=
  py "A03020600900305001001806400008102900700000008006708200002609500800203009005010300".
Definition grid_too_long : str :=
  py "0030206009003050010018064000081029007000000080067082000026095008002030090050103001".

(** A grid with the single clue 1 in A1. *)
Definition grid_one_clue : str :=
  py "100000000000000000000000000000000000000000000000000000000000000000000000000000000".

(** A full grid that is not a solution: [solution_example] with the 4 of
    A1 turned into an 8, the digit of A2. *)
Definition grid_conflict : str :=
  py "883921657967345821251876493548132976729564138136798245372689514814253769695417382".

(** Domains from which search dead-ends after one assignment: A1 and A2,
    in the same row, both have 1 as their only candidate. *)
Definition dead_end : dict str :=
  Dict.set (board_of grid_one_clue) (py "A2") (py "1").

(** Domains with an emptied cell and no cell of two candidates: the board
    of [grid_conflict] once A1 has lost its 8. *)
Definition emptied : dict str :=
  Dict.set (board_of grid_conflict) (py "A1") [].

(** ** Arc consistency and solutions within domains *)

(** Some candidate of [Xi] would be taken out by [revise] against [Xj]. *)
Definition revisable (v : dict str) (Xi Xj : cell) : bool :=
  existsb (fun x => AC_constraint_check v x Xi Xj) (get v Xi).

(** On every arc of the board, each candidate of the first cell leaves
    the second cell a candidate different from it. *)
Definition arc_consistent (v : dict str) : Prop :=
  forall X Y, In X variables -> In Y (neighbors X) ->
  forall x, In x (get v X) -> exists y, In y (get v Y) /\ y <> x.

(** The domains contain a solution: a digit for every cell, taken from
    its domain, different on neighbors. *)
Definition has_solution_within (v : dict str) : Prop :=
  exists sol : cell -> ascii,
    (forall c, In c variables -> In (sol c) (get v c)) /\
    (forall c d, In d (neighbors c) -> sol c <> sol d).

(** [solution_example] with A1 blanked, and a grid whose only clues are
    two 1 in the first row. *)
Definition grid_one_blank : str :=
  py "083921657967345821251876493548132976729564138136798245372689514814253769695417382".
Definition grid_two_ones : str :=
  py "110000000000000000000000000000000000000000000000000000000000000000000000000000000".

(** * Properties *)

(** ** Dictionaries *)

Lemma mem_true_iff {A} (dec : forall a b : A, {a = b} + {a <> b}) x l :
  mem dec x l = true <-> In x l.
Proof. unfold mem; destruct (in_dec dec x l); split; intros; congruence || auto. Qed.

Lemma mem_false_iff {A} (dec : forall a b : A, {a = b} + {a <> b}) x l :
  mem dec x l = false <-> ~ In x l.
Proof. unfold mem; destruct (in_dec dec x l); split; intros; congruence || auto; contradiction. Qed.

Lemma mem_str_true k l : mem_str k l = true <-> In k l.
Proof. apply mem_true_iff. Qed.

Lemma mem_str_false k l : mem_str k l = false <-> ~ In k l.
Proof. apply mem_false_iff. Qed.

Module DictFacts.
Section Facts.
Context {V : Type}.
Implicit Types (d e : dict V) (k : cell) (v : V).

Lemma lookup_set_eq d k v : Dict.lookup (Dict.set d k v) k = Some v.
Proof.
  induction d as [|[k' v'] d IH]; simpl.
  - destruct (str_eq_dec k k); congruence.
  - destruct (str_eq_dec k k') as [->|Hne]; simpl.
    + destruct (str_eq_dec k' k'); congruence.
    + destruct (str_eq_dec k k'); congruence.
Qed.

Lemma lookup_set_ne d k k' v :
  k <> k' -> Dict.lookup (Dict.set d k v) k' = Dict.lookup d k'.
Proof.
  intros Hne. induction d as [|[k0 v0] d IH]; simpl.
  - destruct (str_eq_dec k' k); congruence.
  - destruct (str_eq_dec k k0) as [->|Hk]; simpl.
    + destruct (str_eq_dec k' k0); congruence.
    + destruct (str_eq_dec k' k0); congruence.
Qed.

Lemma lookup_some_in d k v : Dict.lookup d k = Some v -> In k (Dict.keys d).
Proof.
  induction d as [|[k' v'] d IH]; simpl; [discriminate|].
  destruct (str_eq_dec k k'); auto.
Qed.

Lemma lookup_none_iff d k : Dict.lookup d k = None <-> ~ In k (Dict.keys d).
Proof.
  induction d as [|[k' v'] d IH]; simpl.
  - tauto.
  - destruct (str_eq_dec k k') as [->|Hne].
    + split; [discriminate | intros H; exfalso; auto].
    + rewrite IH. split; intros H; [intros [E|I]; congruence || auto | auto].
Qed.

Lemma in_keys_lookup d k : In k (Dict.keys d) -> exists v, Dict.lookup d k = Some v.
Proof.
  intros Hin. destruct (Dict.lookup d k) eqn:E; eauto.
  apply lookup_none_iff in E. contradiction.
Qed.

Lemma keys_set_in d k v : In k (Dict.keys d) -> Dict.keys (Dict.set d k v) = Dict.keys d.
Proof.
  induction d as [|[k' v'] d IH]; simpl; [tauto|].
  intros Hin. destruct (str_eq_dec k k') as [->|Hne]; simpl; [reflexivity|].
  f_equal. apply IH. destruct Hin; congruence.
Qed.

Lemma keys_set_notin d k v :
  ~ In k (Dict.keys d) -> Dict.keys (Dict.set d k v) = Dict.keys d ++ [k].
Proof.
  induction d as [|[k' v'] d IH]; simpl; [reflexivity|].
  intros Hn. destruct (str_eq_dec k k') as [->|Hne]; simpl; [tauto|].
  f_equal. apply IH. tauto.
Qed.

Lemma del_set_notin d k v : ~ In k (Dict.keys d) -> Dict.del (Dict.set d k v) k = d.
Proof.
  induction d as [|[k' v'] d IH]; simpl; intros Hn.
  - destruct (str_eq_dec k k); congruence.
  - destruct (str_eq_dec k k') as [->|Hne]; simpl; [tauto|].
    destruct (str_eq_dec k k'); [congruence|]. f_equal. apply IH. tauto.
Qed.

Lemma set_set d k v v' : Dict.set (Dict.set d k v) k v' = Dict.set d k v'.
Proof.
  induction d as [|[k0 v0] d IH]; simpl.
  - destruct (str_eq_dec k k); congruence.
  - destruct (str_eq_dec k k0) as [->|Hne]; simpl.
    + destruct (str_eq_dec k0 k0); congruence.
    + destruct (str_eq_dec k k0); congruence.
Qed.

(** Two dicts with the same keys in the same order and the same value
    at every key are the same dict. *)
Lemma dict_ext d e :
  Dict.keys d = Dict.keys e -> NoDup (Dict.keys d) ->
  (forall k, In k (Dict.keys d) -> Dict.lookup d k = Dict.lookup e k) ->
  d = e.
Proof.
  revert e. induction d as [|[k v] d IH]; intros [|[k' v'] e]; simpl;
    try discriminate; auto.
  intros Hk Hnd Hl. injection Hk as -> Hk. inversion Hnd as [|? ? Hnin Hnd']; subst.
  pose proof (Hl k' (or_introl eq_refl)) as H0.
  destruct (str_eq_dec k' k'); [|congruence]. injection H0 as ->.
  f_equal. apply IH; auto.
  intros k Hin. specialize (Hl k (or_intror Hin)).
  destruct (str_eq_dec k k') as [->|]; [contradiction | assumption].
Qed.

Lemma keys_update d e :
  incl (Dict.keys e) (Dict.keys d) -> Dict.keys (Dict.update d e) = Dict.keys d.
Proof.
  unfold Dict.update. revert d. induction e as [|[k v] e IH]; simpl; intros d Hi; auto.
  rewrite IH.
  - apply keys_set_in. apply Hi. now left.
  - rewrite keys_set_in by (apply Hi; now left).
    intros x Hx. apply Hi. now right.
Qed.

Lemma lookup_update_notin d e k :
  ~ In k (Dict.keys e) -> Dict.lookup (Dict.update d e) k = Dict.lookup d k.
Proof.
  unfold Dict.update. revert d. induction e as [|[k0 v0] e IH]; simpl; intros d Hn; auto.
  rewrite IH by tauto. apply lookup_set_ne. intros ->. tauto.
Qed.

Lemma lookup_update d e k :
  NoDup (Dict.keys e) -> In k (Dict.keys e) ->
  Dict.lookup (Dict.update d e) k = Dict.lookup e k.
Proof.
  revert d. induction e as [|[k0 v0] e IH]; simpl; intros d Hnd Hin.
  - contradiction.
  - inversion Hnd as [|? ? Hnin Hnd']; subst.
    change (Dict.update d ((k0, v0) :: e)) with (Dict.update (Dict.set d k0 v0) e).
    destruct (str_eq_dec k k0) as [->|Hne].
    + rewrite lookup_update_notin by assumption. apply lookup_set_eq.
    + destruct Hin as [E|Hin]; [congruence|]. now apply IH.
Qed.

(** Restoring a snapshot with the same keys gives the snapshot back. *)
Lemma update_same_keys d e :
  Dict.keys d = Dict.keys e -> NoDup (Dict.keys e) -> Dict.update d e = e.
Proof.
  intros Hk Hnd. apply dict_ext.
  - rewrite keys_update; [assumption | rewrite Hk; apply incl_refl].
  - rewrite keys_update; [congruence | rewrite Hk; apply incl_refl].
  - intros k Hin. rewrite keys_update in Hin by (rewrite Hk; apply incl_refl).
    apply lookup_update; congruence.
Qed.
End Facts.
End DictFacts.

(** ** The board *)

Lemma filter_none {A} (f : A -> bool) l :
  (forall x, In x l -> f x = false) -> filter f l = [].
Proof.
  induction l as [|a l IH]; simpl; intros H; auto.
  rewrite (H a) by auto. apply IH. auto.
Qed.

Lemma variables_length : length variables = 81.
Proof. reflexivity. Qed.

Lemma variables_NoDup : NoDup variables.
Proof.
  assert (E : nodup str_eq_dec variables = variables) by (vm_compute; reflexivity).
  rewrite <- E. apply NoDup_nodup.
Qed.

Lemma units_in_variables u c : In u contraint_sets -> In c u -> In c variables.
Proof.
  assert (E : forallb (fun u => forallb (fun c => mem_str c variables) u) contraint_sets = true)
    by (vm_compute; reflexivity).
  intros Hu Hc. rewrite forallb_forall in E. specialize (E u Hu).
  rewrite forallb_forall in E. apply mem_str_true, E, Hc.
Qed.

Lemma in_neighbors_iff c d :
  In d (neighbors c) <-> d <> c /\ exists u, In u contraint_sets /\ In c u /\ In d u.
Proof.
  unfold neighbors, sets. split.
  - intros H. apply in_remove in H. destruct H as [H Hne]. split; [assumption|].
    apply nodup_In, in_concat in H. destruct H as (u & Hu & Hd).
    apply filter_In in Hu. destruct Hu as [Hu Hc]. apply mem_str_true in Hc. eauto.
  - intros (Hne & u & Hu & Hc & Hd). apply in_in_remove; [assumption|].
    apply nodup_In, in_concat. exists u. split; [|assumption].
    apply filter_In. split; [assumption|]. now apply mem_str_true.
Qed.

Lemma neighbors_sym c d : In d (neighbors c) -> In c (neighbors d).
Proof.
  rewrite !in_neighbors_iff. intros (Hne & u & Hu & Hc & Hd). split; [congruence|]. eauto.
Qed.

Lemma neighbors_irrefl c : ~ In c (neighbors c).
Proof. rewrite in_neighbors_iff. tauto. Qed.

Lemma neighbors_in_variables c d : In d (neighbors c) -> In c variables /\ In d variables.
Proof.
  rewrite in_neighbors_iff. intros (_ & u & Hu & Hc & Hd).
  split; eapply units_in_variables; eauto.
Qed.

Lemma neighbors_NoDup c : NoDup (neighbors c).
Proof.
  unfold neighbors. generalize (nodup str_eq_dec (concat (sets c))) (NoDup_nodup str_eq_dec (concat (sets c))).
  intros l Hl. induction Hl as [|x l Hx Hl IH]; simpl; [constructor|].
  destruct (str_eq_dec c x); [assumption|].
  constructor; [|assumption]. intros H. apply in_remove in H. tauto.
Qed.

Lemma neighbors_outside c : ~ In c variables -> neighbors c = [].
Proof.
  intros Hn. destruct (neighbors c) as [|d l] eqn:E; [reflexivity|].
  exfalso. apply Hn. apply (neighbors_in_variables c d). rewrite E. now left.
Qed.

Lemma neighbors_count : Forall (fun c => length (neighbors c) = 20) variables.
Proof.
  apply Forall_forall.
  assert (E : forallb (fun c => length (neighbors c) =? 20) variables = true)
    by (vm_compute; reflexivity).
  rewrite forallb_forall in E. intros c Hc. apply Nat.eqb_eq, E, Hc.
Qed.

Lemma neighbors_length_le c : length (neighbors c) <= 20.
Proof.
  destruct (in_dec str_eq_dec c variables) as [Hin|Hn].
  - pose proof neighbors_count as H. rewrite Forall_forall in H. rewrite (H c Hin). lia.
  - rewrite neighbors_outside by assumption. simpl. lia.
Qed.

Lemma in_constraints_iff X Y :
  In (X, Y) constraints <-> In X variables /\ In Y (neighbors X).
Proof.
  unfold constraints. rewrite nodup_In, in_flat_map. split.
  - intros (v & Hv & H). apply in_map_iff in H. destruct H as (n & E & Hn).
    injection E as -> ->. auto.
  - intros [HX HY]. exists X. split; [assumption|]. apply in_map_iff. eauto.
Qed.

Lemma constraints_NoDup : NoDup constraints.
Proof. apply NoDup_nodup. Qed.

Lemma constraints_length : length constraints = 1620.
Proof. vm_compute. reflexivity. Qed.

(** C8: the neighbor relation is symmetric, each of the 81 cells has
    exactly 20 (distinct) neighbors, and the arc set [constraints] is made
    of the 1620 ordered pairs (cell, neighbor).  None of this depends on
    the grid the CSP is built from. *)
Theorem neighbors_symmetric_and_counts :
  (forall C D, In D (neighbors C) <-> In C (neighbors D)) /\
  length variables = 81 /\
  Forall (fun C => NoDup (neighbors C) /\ length (neighbors C) = 20) variables /\
  (forall X Y, In (X, Y) constraints <-> In X variables /\ In Y (neighbors X)) /\
  NoDup constraints /\
  length constraints = 81 * 20 /\
  length constraints = 1620.
Proof.
  split; [intros C D; split; apply neighbors_sym|].
  split; [apply variables_length|].
  split.
  { pose proof neighbors_count as H. rewrite Forall_forall in *.
    intros C HC. split; [apply neighbors_NoDup | now apply H]. }
  split; [apply in_constraints_iff|].
  split; [apply constraints_NoDup|].
  split; apply constraints_length.
Qed.

(** ** Lookups in the dict of domains *)

Lemma get_set_eq d k v : get (Dict.set d k v) k = v.
Proof. unfold get. now rewrite DictFacts.lookup_set_eq. Qed.

Lemma get_set_ne d k k' v : k <> k' -> get (Dict.set d k v) k' = get d k'.
Proof. intros H. unfold get. now rewrite DictFacts.lookup_set_ne. Qed.

Lemma set_lookup_same {V} (d : dict V) k v : Dict.lookup d k = Some v -> Dict.set d k v = d.
Proof.
  induction d as [|[k' v'] d IH]; simpl; [discriminate|].
  destruct (str_eq_dec k k') as [->|Hne]; intros H.
  - congruence.
  - f_equal. auto.
Qed.

Lemma get_nonempty_in_keys d k : get d k <> [] -> In k (Dict.keys d).
Proof.
  unfold get. destruct (Dict.lookup d k) eqn:E; [|congruence].
  intros _. eapply DictFacts.lookup_some_in; eauto.
Qed.

Lemma filter_all {A} (f : A -> bool) l :
  (forall x, In x l -> f x = true) -> filter f l = l.
Proof.
  induction l as [|a l IH]; simpl; intros H; auto.
  rewrite (H a) by auto. f_equal. apply IH. auto.
Qed.

Lemma filter_filter {A} (f g : A -> bool) l :
  filter f (filter g l) = filter (fun x => g x && f x) l.
Proof.
  induction l as [|a l IH]; simpl; auto.
  destruct (g a); simpl; [destruct (f a)|]; rewrite IH; reflexivity.
Qed.

Lemma replace_in s x c : In c (replace s x) <-> In c s /\ c <> x.
Proof.
  unfold replace. rewrite filter_In, negb_true_iff. split; intros [H1 H2]; split; auto.
  - intros ->. now rewrite Ascii.eqb_refl in H2.
  - now apply Ascii.eqb_neq.
Qed.

Lemma replace_absent s x : ~ In x s -> replace s x = s.
Proof.
  intros H. apply filter_all. intros c Hc. apply negb_true_iff, Ascii.eqb_neq. congruence.
Qed.

(** ** [set_values] and the construction of the CSP (C5) *)

Lemma set_not_in {V} (d : dict V) k v : ~ In k (Dict.keys d) -> Dict.set d k v = d ++ [(k, v)].
Proof.
  induction d as [|[k' v'] d IH]; simpl; intros Hn; [reflexivity|].
  destruct (str_eq_dec k k') as [->|Hne]; [tauto|]. f_equal. apply IH. tauto.
Qed.

Lemma skipn_nth_error {A} (l : list A) i x :
  nth_error l i = Some x -> skipn i l = x :: skipn (S i) l.
Proof.
  revert i. induction l as [|a l IH]; intros [|i]; simpl; try discriminate.
  - now intros [= ->].
  - intros H. now apply IH.
Qed.

Lemma set_values_loop_spec grid vs : forall i acc,
  NoDup vs -> (forall v, In v vs -> ~ In v (Dict.keys acc)) -> i <= length grid ->
  set_values_loop grid vs i acc =
    if length grid <? i + length vs then Raise IndexError
    else Ret (acc ++ map (fun p => (fst p, initial_domain (snd p))) (combine vs (skipn i grid))).
Proof.
  induction vs as [|v vs IH]; intros i acc Hnd Hfresh Hi; cbn [set_values_loop length].
  - rewrite Nat.add_0_r. destruct (length grid <? i) eqn:E.
    + apply Nat.ltb_lt in E. lia.
    + simpl. now rewrite app_nil_r.
  - inversion Hnd as [|? ? Hv Hnd']; subst.
    destruct (nth_error grid i) as [ch|] eqn:E.
    + assert (Hlt : i < length grid) by (apply nth_error_Some; congruence).
      rewrite IH; [|assumption| |lia].
      * replace (S i + length vs) with (i + S (length vs)) by lia.
        destruct (length grid <? i + S (length vs)); [reflexivity|].
        rewrite (skipn_nth_error grid i ch E). simpl.
        assert (Hset : forall d, Dict.set acc v d = acc ++ [(v, d)]).
        { intros d. apply set_not_in. apply Hfresh. now left. }
        unfold initial_domain.
        destruct (Ascii.eqb ch "0"); simpl; rewrite Hset, <- app_assoc; reflexivity.
      * intros v' Hv' Hin.
        assert (Hk : forall d, Dict.keys (Dict.set acc v d) = Dict.keys acc ++ [v]).
        { intros d. apply DictFacts.keys_set_notin. apply Hfresh. now left. }
        destruct (negb (Ascii.eqb ch "0")); rewrite Hk in Hin;
          apply in_app_or in Hin; destruct Hin as [Hin|[->|[]]];
          try (now apply (Hfresh v' (or_intror Hv'))); contradiction.
    + apply nth_error_None in E.
      assert (Hlt : (length grid <? i + S (length vs)) = true) by (apply Nat.ltb_lt; lia).
      now rewrite Hlt.
Qed.

Lemma keys_combine {V} (h : ascii -> V) l : forall (s : str),
  length l <= length s ->
  Dict.keys (map (fun p => (fst p, h (snd p))) (combine l s)) = l.
Proof.
  unfold Dict.keys.
  induction l as [|k l IH]; intros [|x s] Hl; simpl in *; try reflexivity; try lia.
  f_equal. apply IH. lia.
Qed.

(** What [CSP(grid)] does on every input string. *)
Lemma CSP_spec grid :
  CSP grid =
    if length grid <? 81 then Raise IndexError
    else Ret (map (fun p => (fst p, initial_domain (snd p))) (combine variables grid)).
Proof.
  unfold CSP, set_values. fold variables.
  rewrite set_values_loop_spec; [reflexivity|apply variables_NoDup| |lia].
  intros v _ [].
Qed.

(** C5, as stated, fails: a grid with a letter, and a grid of 82
    characters, are both accepted; the board is built, the letter becomes
    the only candidate of its cell. *)
Lemma CSP_accepts_letter_and_long_grid :
  (exists board, CSP grid_with_letter = Ret board /\
                 get board (py "A1") = py "A" /\ Dict.keys board = variables) /\
  (length grid_too_long = 82 /\ exists board, CSP grid_too_long = Ret board).
Proof.
  split.
  - eexists. split; [vm_compute; reflexivity|]. split; vm_compute; reflexivity.
  - split; [reflexivity|]. eexists. vm_compute. reflexivity.
Qed.

(** C5, amended: construction fails exactly on grids of fewer than 81
    characters, with Python's [IndexError] raised by [grid[i]]; on every
    other grid it succeeds whatever the characters are: the first 81 are
    read, ['0'] gives the domain "123456789" and any other character is
    taken as the cell's only candidate. *)
Theorem CSP_fails_only_on_short_grid (grid : str) :
  (length grid < 81 <-> CSP grid = Raise IndexError) /\
  (81 <= length grid <->
   CSP grid = Ret (map (fun p => (fst p, if Ascii.eqb (snd p) "0" then cols else [snd p]))
                       (combine variables grid))) /\
  (forall board, CSP grid = Ret board -> wf_values board).
Proof.
  change (fun p : cell * ascii => (fst p, if Ascii.eqb (snd p) "0" then cols else [snd p]))
    with (fun p : cell * ascii => (fst p, initial_domain (snd p))).
  rewrite CSP_spec.
  destruct (length grid <? 81) eqn:E.
  - apply Nat.ltb_lt in E. split; [tauto|]. split.
    + split; [lia | discriminate].
    + discriminate.
  - apply Nat.ltb_ge in E. split; [|split].
    + split; [lia | discriminate].
    + tauto.
    + intros board H.
      assert (Hb : map (fun p => (fst p, initial_domain (snd p))) (combine variables grid)
                   = board) by congruence.
      rewrite <- Hb. unfold wf_values. apply keys_combine.
      rewrite variables_length. exact E.
Qed.

(** ** [AC_constraint_check] and [revise] (C9) *)

Lemma forallb_ext {A} (f g : A -> bool) l :
  (forall x, f x = g x) -> forallb f l = forallb g l.
Proof. intros H. induction l as [|a l IH]; simpl; [reflexivity|]. now rewrite H, IH. Qed.

Lemma existsb_ext {A} (f g : A -> bool) l :
  (forall x, f x = g x) -> existsb f l = existsb g l.
Proof. intros H. induction l as [|a l IH]; simpl; [reflexivity|]. now rewrite H, IH. Qed.

Lemma AC_constraint_check_neighbor vals x Xi Xj :
  In Xj (neighbors Xi) ->
  AC_constraint_check vals x Xi Xj = forallb (fun y => Ascii.eqb y x) (get vals Xj).
Proof.
  intros H. unfold AC_constraint_check. apply mem_str_true in H. rewrite H.
  apply forallb_ext. intros y. simpl. now rewrite negb_involutive.
Qed.

Lemma AC_constraint_check_other vals x Xi Xj :
  ~ In Xj (neighbors Xi) -> AC_constraint_check vals x Xi Xj = true.
Proof.
  intros H. unfold AC_constraint_check. apply mem_str_false in H. rewrite H.
  apply forallb_forall. reflexivity.
Qed.

(** The check of a candidate of [Xi] does not look at [Xi]'s own domain. *)
Lemma AC_constraint_check_set vals s x Xi Xj :
  AC_constraint_check (Dict.set vals Xi s) x Xi Xj = AC_constraint_check vals x Xi Xj.
Proof.
  destruct (in_dec str_eq_dec Xj (neighbors Xi)) as [Hin|Hn].
  - rewrite !AC_constraint_check_neighbor by assumption.
    rewrite get_set_ne; [reflexivity|]. intros ->. now apply neighbors_irrefl in Hin.
  - now rewrite !AC_constraint_check_other.
Qed.

Section ReviseFacts.
Context {O : SetOrder}.

Lemma set_iter_in {A} (l : list A) x : In x (set_iter A l) <-> In x l.
Proof.
  split; apply Permutation_in; [|apply Permutation_sym]; apply set_iter_perm.
Qed.

Lemma set_iter_length {A} (l : list A) : length (set_iter A l) = length l.
Proof. apply Permutation_length, set_iter_perm. Qed.

Lemma set_iter_nil {A} : set_iter A [] = [].
Proof. apply Permutation_nil, Permutation_sym, set_iter_perm. Qed.

Variables (vals : dict str) (Xi Xj : cell).

Let chk (x : ascii) : bool := AC_constraint_check vals x Xi Xj.
Let step (st : bool * dict str) (x : ascii) : bool * dict str :=
  if AC_constraint_check (snd st) x Xi Xj
  then (true, Dict.set (snd st) Xi (replace (get (snd st) Xi) x))
  else st.

Lemma revise_loop xs : forall b s,
  fold_left step xs (b, Dict.set vals Xi s) =
    (b || existsb chk xs,
     Dict.set vals Xi
       (filter (fun c => negb (existsb (fun x => chk x && Ascii.eqb c x) xs)) s)).
Proof.
  induction xs as [|x xs IH]; intros b s; simpl.
  - rewrite orb_false_r, filter_all; auto.
  - unfold step at 2. simpl snd. rewrite AC_constraint_check_set. fold (chk x).
    destruct (chk x) eqn:Ex; simpl.
    + rewrite get_set_eq, DictFacts.set_set, IH. rewrite orb_true_r.
      unfold replace. rewrite filter_filter. f_equal. f_equal.
      apply filter_ext. intros c. now rewrite negb_orb.
    + rewrite IH. reflexivity.
Qed.

(** [revise] in closed form: the candidates that pass the check are
    taken out of [Xi]'s domain, whatever the order of the loop. *)
Lemma revise_spec :
  revise vals Xi Xj =
    (existsb chk (get vals Xi),
     if existsb chk (get vals Xi)
     then Dict.set vals Xi (filter (fun c => negb (chk c)) (get vals Xi))
     else vals).
Proof.
  unfold revise. fold step.
  destruct (Dict.lookup vals Xi) as [s|] eqn:El.
  - assert (Eg : get vals Xi = s) by (unfold get; now rewrite El).
    rewrite Eg. rewrite <- (set_lookup_same vals Xi s El) at 1.
    rewrite revise_loop. simpl.
    assert (Hex : existsb chk (set_iter ascii (nodup ascii_dec s)) = existsb chk s).
    { apply eq_true_iff_eq. rewrite !existsb_exists.
      split; intros (x & Hx & Hc); exists x; split; auto.
      - now apply set_iter_in, nodup_In in Hx.
      - now apply set_iter_in, nodup_In. }
    rewrite Hex. f_equal.
    assert (Hf : filter (fun c => negb (existsb (fun x => chk x && Ascii.eqb c x)
                                         (set_iter ascii (nodup ascii_dec s)))) s
                 = filter (fun c => negb (chk c)) s).
    { apply filter_ext_in. intros c Hc. f_equal.
      apply eq_true_iff_eq. rewrite existsb_exists. split.
      - intros (x & _ & H). apply andb_true_iff in H. destruct H as [H1 H2].
        apply Ascii.eqb_eq in H2. now subst.
      - intros H. exists c. split; [now apply set_iter_in, nodup_In|].
        now rewrite H, Ascii.eqb_refl. }
    rewrite Hf. destruct (existsb chk s) eqn:Ee; [reflexivity|].
    rewrite filter_all; [now apply set_lookup_same|].
    intros c Hc. apply negb_true_iff.
    destruct (chk c) eqn:Ec; [|reflexivity].
    assert (existsb chk s = true) by (apply existsb_exists; eauto). congruence.
  - assert (Eg : get vals Xi = []) by (unfold get; now rewrite El).
    rewrite Eg. simpl. now rewrite set_iter_nil.
Qed.

Lemma revise_domain :
  get (snd (revise vals Xi Xj)) Xi = filter (fun c => negb (chk c)) (get vals Xi).
Proof.
  rewrite revise_spec. simpl. destruct (existsb chk (get vals Xi)) eqn:E.
  - apply get_set_eq.
  - symmetry. apply filter_all. intros c Hc. apply negb_true_iff.
    destruct (chk c) eqn:Ec; [|reflexivity].
    assert (existsb chk (get vals Xi) = true) by (apply existsb_exists; eauto). congruence.
Qed.

Lemma revise_others k : k <> Xi -> get (snd (revise vals Xi Xj)) k = get vals k.
Proof.
  intros Hk. rewrite revise_spec. simpl.
  destruct (existsb chk (get vals Xi)); [|reflexivity].
  apply get_set_ne. congruence.
Qed.

Lemma revise_keys : Dict.keys (snd (revise vals Xi Xj)) = Dict.keys vals.
Proof.
  rewrite revise_spec. simpl. destruct (existsb chk (get vals Xi)) eqn:E; [|reflexivity].
  apply DictFacts.keys_set_in, get_nonempty_in_keys.
  intros H. rewrite H in E. discriminate.
Qed.
End ReviseFacts.

(** C9: on an arc [(Xi, Xj)] of the board, [revise] takes a candidate
    [x] out of [Xi]'s domain exactly when every value in [Xj]'s domain is
    [x]; no other domain changes; the flag tells whether something was
    taken out; and an empty domain of [Xj] empties the domain of [Xi]. *)
Theorem revise_removes_iff_neighbor_within_singleton
    (O : SetOrder) (vals : dict str) (Xi Xj : cell) :
  In Xj (neighbors Xi) ->
  let revised := fst (revise vals Xi Xj) in
  let vals' := snd (revise vals Xi Xj) in
  get vals' Xi =
    filter (fun x => negb (forallb (fun y => Ascii.eqb y x) (get vals Xj))) (get vals Xi) /\
  (forall x, In x (get vals Xi) ->
     (~ In x (get vals' Xi) <-> (forall y, In y (get vals Xj) -> y = x))) /\
  (forall x, In x (get vals' Xi) -> In x (get vals Xi)) /\
  (forall k, k <> Xi -> get vals' k = get vals k) /\
  (revised = true <-> get vals' Xi <> get vals Xi) /\
  (get vals Xj = [] -> get vals' Xi = []).
Proof.
  intros Hn revised vals'. subst revised vals'.
  assert (Hd : get (snd (revise vals Xi Xj)) Xi =
               filter (fun x => negb (forallb (fun y => Ascii.eqb y x) (get vals Xj)))
                      (get vals Xi)).
  { rewrite revise_domain. apply filter_ext. intros c.
    now rewrite AC_constraint_check_neighbor. }
  split; [exact Hd|]. split; [|split; [|split; [|split]]].
  - intros x Hx. rewrite Hd, filter_In, negb_true_iff. split.
    + intros H y Hy.
      destruct (forallb (fun y0 => Ascii.eqb y0 x) (get vals Xj)) eqn:E; [|tauto].
      rewrite forallb_forall in E. now apply Ascii.eqb_eq, E.
    + intros H [_ E].
      assert (forallb (fun y0 => Ascii.eqb y0 x) (get vals Xj) = true); [|congruence].
      apply forallb_forall. intros y Hy. apply Ascii.eqb_eq. auto.
  - intros x. rewrite Hd, filter_In. tauto.
  - intros k Hk. now apply revise_others.
  - rewrite Hd, revise_spec. simpl.
    set (f := fun x => negb (forallb (fun y => Ascii.eqb y x) (get vals Xj))).
    assert (Hex : existsb (fun x => AC_constraint_check vals x Xi Xj) (get vals Xi)
                  = existsb (fun x => negb (f x)) (get vals Xi)).
    { apply existsb_ext. intros x. unfold f.
      now rewrite negb_involutive, AC_constraint_check_neighbor. }
    rewrite Hex. split.
    + intros He Heq. apply existsb_exists in He. destruct He as (x & Hx & Hfx).
      rewrite <- Heq in Hx. apply filter_In in Hx. destruct Hx as [_ Hx].
      rewrite Hx in Hfx. discriminate.
    + intros Hne. destruct (existsb (fun x => negb (f x)) (get vals Xi)) eqn:E; [reflexivity|].
      exfalso. apply Hne. apply filter_all. intros x Hx.
      destruct (f x) eqn:Ef; [reflexivity|].
      assert (existsb (fun x => negb (f x)) (get vals Xi) = true); [|congruence].
      apply existsb_exists. exists x. now rewrite Ef.
  - intros He. rewrite Hd, He. simpl. apply filter_none. reflexivity.
Qed.

(** ** The arcs [AC3] puts back on its queue (C4) *)

Lemma variables_two_chars c : In c variables -> length c = 2.
Proof.
  unfold variables, cross. rewrite in_flat_map. intros (x & _ & H).
  apply in_map_iff in H. destruct H as (y & <- & _). reflexivity.
Qed.

Lemma set_of_str_one_char s k : In k (set_of_str s) -> length k = 1.
Proof.
  unfold set_of_str. rewrite nodup_In, in_map_iff. intros (c & <- & _). reflexivity.
Qed.

(** [set(Xj)] is a set of characters, and no neighbor, being a string of
    two characters, belongs to it: the difference takes nothing away. *)
Lemma neighbors_minus_set_of_str Xi Xj :
  set_diff str_eq_dec (neighbors Xi) (set_of_str Xj) = neighbors Xi.
Proof.
  unfold set_diff. apply filter_all. intros k Hk. apply negb_true_iff, mem_false_iff.
  intros H. apply set_of_str_one_char in H.
  apply neighbors_in_variables in Hk. destruct Hk as [_ Hk].
  apply variables_two_chars in Hk. lia.
Qed.

Section RequeueFacts.
Context {O : SetOrder}.

Lemma requeue_perm Xi Xj :
  Permutation (requeue Xi Xj) (map (fun Xk => (Xk, Xi)) (neighbors Xi)).
Proof.
  unfold requeue. rewrite neighbors_minus_set_of_str.
  apply Permutation_map, set_iter_perm.
Qed.

Lemma requeue_in Xi Xj a :
  In a (requeue Xi Xj) <-> exists Xk, a = (Xk, Xi) /\ In Xk (neighbors Xi).
Proof.
  split.
  - intros H. apply (Permutation_in _ (requeue_perm Xi Xj)) in H.
    apply in_map_iff in H. destruct H as (k & <- & Hk). eauto.
  - intros (k & -> & Hk). apply (Permutation_in _ (Permutation_sym (requeue_perm Xi Xj))).
    apply in_map_iff. eauto.
Qed.

Lemma requeue_length Xi Xj : length (requeue Xi Xj) <= 20.
Proof.
  rewrite (Permutation_length (requeue_perm Xi Xj)), length_map.
  apply neighbors_length_le.
Qed.
End RequeueFacts.

(** C4 on the board of [grid_one_clue]: processing the arc (A2, A1)
    takes 1 out of the domain of A2, which stays non-empty, and the arcs
    put back on the queue are (Z, A2) for all 20 neighbors Z of A2, the
    arc (A1, A2) among them: [set(Xj)] is the set of the characters of
    the name "A1", not the set holding that name. *)
Theorem AC3_requeues_the_arc_of_the_neighbor_just_used (O : SetOrder) :
  let vals := board_of grid_one_clue in
  let A1 := py "A1" in
  let A2 := py "A2" in
  In A1 (neighbors A2) /\
  fst (revise vals A2 A1) = true /\
  get (snd (revise vals A2 A1)) A2 = py "23456789" /\
  (forall fuel q,
     AC3_loop (S fuel) ((A2, A1) :: q) vals =
     AC3_loop fuel (q ++ requeue A2 A1) (snd (revise vals A2 A1))) /\
  Permutation (requeue A2 A1) (map (fun Z => (Z, A2)) (neighbors A2)) /\
  length (requeue A2 A1) = 20 /\
  In (A1, A2) (requeue A2 A1).
Proof.
  intros vals A1 A2.
  assert (Hn : In A1 (neighbors A2)) by (apply mem_str_true; vm_compute; reflexivity).
  assert (Hr : revise vals A2 A1 =
               (true, Dict.set vals A2 (py "23456789"))).
  { rewrite revise_spec. vm_compute. reflexivity. }
  split; [exact Hn|]. split; [now rewrite Hr|]. split; [rewrite Hr; apply get_set_eq|].
  split.
  { intros fuel q. cbn [AC3_loop]. rewrite Hr. cbn [fst snd].
    rewrite get_set_eq. reflexivity. }
  split; [apply requeue_perm|]. split.
  - rewrite (Permutation_length (requeue_perm A2 A1)), length_map.
    vm_compute. reflexivity.
  - apply requeue_in. eauto.
Qed.

(** ** [AC3]: termination, and what its boolean says (C7) *)

Lemma candidates_set d k v :
  In k (Dict.keys d) ->
  candidates (Dict.set d k v) + length (get d k) = candidates d + length v.
Proof.
  unfold candidates, get. induction d as [|[k' v'] d IH]; simpl; [tauto|].
  intros Hin. destruct (str_eq_dec k k') as [->|Hne]; simpl.
  - lia.
  - assert (Hk : In k (Dict.keys d)) by (destruct Hin; congruence).
    specialize (IH Hk). lia.
Qed.

Lemma filter_length_lt {A} (f : A -> bool) l :
  existsb f l = true -> length (filter (fun x => negb (f x)) l) < length l.
Proof.
  induction l as [|a l IH]; simpl; [discriminate|].
  destruct (f a) eqn:E; simpl.
  - intros _. pose proof (filter_length_le (fun x => negb (f x)) l). lia.
  - intros H. specialize (IH H). lia.
Qed.

Section AC3Runs.
Context {O : SetOrder}.

Lemma revise_candidates vals Xi Xj :
  candidates (snd (revise vals Xi Xj)) <= candidates vals /\
  (fst (revise vals Xi Xj) = true ->
   candidates (snd (revise vals Xi Xj)) < candidates vals).
Proof.
  rewrite revise_spec. simpl.
  destruct (existsb (fun x => AC_constraint_check vals x Xi Xj) (get vals Xi)) eqn:E.
  - pose proof (filter_length_lt _ _ E) as Hlt.
    assert (Hk : In Xi (Dict.keys vals)).
    { apply get_nonempty_in_keys. intros H. rewrite H in E. discriminate. }
    pose proof (candidates_set vals Xi
      (filter (fun c => negb (AC_constraint_check vals c Xi Xj)) (get vals Xi)) Hk).
    split; [|intros _]; lia.
  - split; [lia | discriminate].
Qed.

Lemma length_zero_iff (s : str) : (length s =? 0) = true <-> s = [].
Proof. rewrite Nat.eqb_eq. apply length_zero_iff_nil. Qed.

(** The loop ends: a revision that returns [True] takes at least one
    candidate off the board and adds at most 20 arcs. *)
Lemma AC3_loop_terminates fuel : forall q vals,
  length q + 20 * candidates vals < fuel ->
  exists b vals', AC3_loop fuel q vals = Ret (b, vals').
Proof.
  induction fuel as [|fuel IH]; intros q vals Hf; [lia|].
  destruct q as [|[Xi Xj] q]; simpl; [eauto|].
  destruct (revise vals Xi Xj) as [revised vals1] eqn:Er.
  pose proof (revise_candidates vals Xi Xj) as [Hle Hlt]. rewrite Er in Hle, Hlt.
  simpl in Hle, Hlt. simpl in Hf.
  destruct revised.
  - destruct (length (get vals1 Xi) =? 0); [eauto|].
    apply IH. rewrite length_app. pose proof (requeue_length Xi Xj).
    specialize (Hlt eq_refl). lia.
  - apply IH. lia.
Qed.

Lemma AC3_loop_true fuel : forall q vals vals',
  AC3_loop fuel q vals = Ret (true, vals') -> drains q vals vals'.
Proof.
  induction fuel as [|fuel IH]; intros q vals vals'; simpl; [discriminate|].
  destruct q as [|[Xi Xj] q]; [intros [= <-]; constructor|].
  destruct (revise vals Xi Xj) as [revised vals1] eqn:Er.
  destruct revised.
  - destruct (length (get vals1 Xi) =? 0) eqn:El; [discriminate|].
    intros H. apply drains_revised; rewrite Er; simpl; auto.
    intros Hn. rewrite Hn in El. discriminate.
  - intros H. apply drains_unchanged; rewrite Er; simpl; auto.
Qed.

Lemma AC3_loop_false fuel : forall q vals vals',
  AC3_loop fuel q vals = Ret (false, vals') -> wiped q vals vals'.
Proof.
  induction fuel as [|fuel IH]; intros q vals vals'; simpl; [discriminate|].
  destruct q as [|[Xi Xj] q]; [discriminate|].
  destruct (revise vals Xi Xj) as [revised vals1] eqn:Er.
  destruct revised.
  - destruct (length (get vals1 Xi) =? 0) eqn:El.
    + intros [= <-]. apply length_zero_iff in El.
      replace vals1 with (snd (revise vals Xi Xj)) by now rewrite Er.
      apply wiped_now; rewrite Er; simpl; auto.
    + intros H. apply wiped_revised; rewrite Er; simpl; auto.
      intros Hn. rewrite Hn in El. discriminate.
  - intros H. apply wiped_unchanged; rewrite Er; simpl; auto.
Qed.

Lemma drains_AC3_loop q vals vals' :
  drains q vals vals' ->
  forall fuel r, AC3_loop fuel q vals = Ret r -> r = (true, vals').
Proof.
  induction 1 as [vals|Xi Xj q vals vals' Hr _ IH|Xi Xj q vals vals' Hr Hne _ IH];
    intros [|fuel] r; simpl; try discriminate.
  - now intros [= <-].
  - destruct (revise vals Xi Xj) as [revised vals1]. simpl in *. subst revised.
    apply IH.
  - destruct (revise vals Xi Xj) as [revised vals1]. simpl in *. subst revised.
    destruct (length (get vals1 Xi) =? 0) eqn:El.
    + apply length_zero_iff in El. contradiction.
    + apply IH.
Qed.

Lemma wiped_AC3_loop q vals vals' :
  wiped q vals vals' ->
  forall fuel r, AC3_loop fuel q vals = Ret r -> r = (false, vals').
Proof.
  induction 1 as [Xi Xj q vals Hr He|Xi Xj q vals vals' Hr _ IH
                 |Xi Xj q vals vals' Hr Hne _ IH];
    intros [|fuel] r; simpl; try discriminate.
  - destruct (revise vals Xi Xj) as [revised vals1]. simpl in *. subst revised.
    rewrite He. simpl. now intros [= <-].
  - destruct (revise vals Xi Xj) as [revised vals1]. simpl in *. subst revised.
    apply IH.
  - destruct (revise vals Xi Xj) as [revised vals1]. simpl in *. subst revised.
    destruct (length (get vals1 Xi) =? 0) eqn:El.
    + apply length_zero_iff in El. contradiction.
    + apply IH.
Qed.

Lemma AC3_terminates vals : exists b vals', AC3 vals = Ret (b, vals').
Proof. unfold AC3. apply AC3_loop_terminates. lia. Qed.
End AC3Runs.

(** C7: [AC3] always returns; it returns [True] exactly when the queue
    drains with no revision leaving its cell without candidates, and
    [False] exactly when some revision does, in which case the loop stops
    at that revision: whatever is left on the queue is not processed and
    the domains returned are those right after the revision. *)
Theorem AC3_true_iff_queue_drains (O : SetOrder) (vals : dict str) :
  exists b vals',
    AC3 vals = Ret (b, vals') /\
    (b = true <-> drains (set_iter _ constraints) vals vals') /\
    (b = false <-> wiped (set_iter _ constraints) vals vals') /\
    (forall v, drains (set_iter _ constraints) vals v -> b = true /\ v = vals') /\
    (forall v, wiped (set_iter _ constraints) vals v -> b = false /\ v = vals') /\
    (forall fuel Xi Xj q v,
       fst (revise v Xi Xj) = true -> get (snd (revise v Xi Xj)) Xi = [] ->
       AC3_loop (S fuel) ((Xi, Xj) :: q) v = Ret (false, snd (revise v Xi Xj))).
Proof.
  destruct (AC3_terminates vals) as (b & vals' & E).
  exists b, vals'. split; [exact E|].
  assert (Hd : forall v, drains (set_iter _ constraints) vals v -> b = true /\ v = vals').
  { intros v Hv. pose proof (@drains_AC3_loop O _ _ _ Hv _ _ E) as H. now injection H as -> ->. }
  assert (Hw : forall v, wiped (set_iter _ constraints) vals v -> b = false /\ v = vals').
  { intros v Hv. pose proof (@wiped_AC3_loop O _ _ _ Hv _ _ E) as H. now injection H as -> ->. }
  split; [|split; [|split; [exact Hd|split; [exact Hw|]]]].
  - split; [intros ->; eapply AC3_loop_true; exact E | intros H; now apply Hd in H].
  - split; [intros ->; eapply AC3_loop_false; exact E | intros H; now apply Hw in H].
  - intros fuel Xi Xj q v Hr He. simpl.
    destruct (revise v Xi Xj) as [revised v1]. simpl in *. subst revised.
    now rewrite He.
Qed.

(** ** Forward checking and the choice of the next cell *)

Lemma wf_values_NoDup vals : wf_values vals -> NoDup (Dict.keys vals).
Proof. intros ->. apply variables_NoDup. Qed.

Lemma replace_idem s x : replace (replace s x) x = replace s x.
Proof.
  apply filter_all. intros c Hc. apply replace_in in Hc.
  apply negb_true_iff, Ascii.eqb_neq. tauto.
Qed.

Lemma replace_incl s x : incl (replace s x) s.
Proof. intros c Hc. apply replace_in in Hc. tauto. Qed.

Section ForwardCheckFacts.
Context {O : SetOrder}.

Lemma prune_fold_get x ns : forall d k,
  get (fold_left (fun v n => Dict.set v n (replace (get v n) x)) ns d) k =
    if mem_str k ns then replace (get d k) x else get d k.
Proof.
  induction ns as [|n ns IH]; intros d k; simpl; [reflexivity|].
  rewrite IH. unfold mem_str, mem. simpl.
  destruct (str_eq_dec n k) as [->|Hne].
  - rewrite get_set_eq. destruct (in_dec str_eq_dec k ns); [apply replace_idem | reflexivity].
  - rewrite get_set_ne by assumption. destruct (in_dec str_eq_dec k ns); reflexivity.
Qed.

Lemma prune_fold_keys x ns : forall d,
  incl ns (Dict.keys d) ->
  Dict.keys (fold_left (fun v n => Dict.set v n (replace (get v n) x)) ns d) = Dict.keys d.
Proof.
  induction ns as [|n ns IH]; intros d Hi; simpl; [reflexivity|].
  assert (Hk : Dict.keys (Dict.set d n (replace (get d n) x)) = Dict.keys d).
  { apply DictFacts.keys_set_in, Hi. now left. }
  rewrite IH; [assumption|]. rewrite Hk. intros k Hk'. apply Hi. now right.
Qed.

Lemma forward_check_get vals x Xi k :
  get (forward_check vals x Xi) k =
    if str_eq_dec k Xi then [x]
    else if mem_str k (neighbors Xi) then replace (get vals k) x
         else get vals k.
Proof.
  unfold forward_check. rewrite prune_fold_get.
  assert (Hm : mem_str k (set_iter cell (neighbors Xi)) = mem_str k (neighbors Xi)).
  { apply eq_true_iff_eq. rewrite !mem_str_true. apply set_iter_in. }
  rewrite Hm. destruct (str_eq_dec k Xi) as [->|Hne].
  - assert (Hf : mem_str Xi (neighbors Xi) = false)
      by (apply mem_str_false, neighbors_irrefl).
    rewrite Hf. apply get_set_eq.
  - rewrite get_set_ne by congruence. reflexivity.
Qed.

Lemma forward_check_wf vals x Xi :
  wf_values vals -> In Xi variables -> wf_values (forward_check vals x Xi).
Proof.
  unfold wf_values, forward_check. intros Hwf HXi.
  assert (Hk : Dict.keys (Dict.set vals Xi [x]) = variables).
  { rewrite DictFacts.keys_set_in; [assumption | now rewrite Hwf]. }
  rewrite prune_fold_keys; [assumption|].
  rewrite Hk. intros n Hn. apply (proj1 (set_iter_in _ _)) in Hn.
  now apply neighbors_in_variables in Hn.
Qed.

Lemma BT_constraint_check_true x Xi assignment :
  BT_constraint_check x Xi assignment = true <->
  (forall n y, In n (neighbors Xi) -> Dict.lookup assignment n = Some y -> y <> x).
Proof.
  unfold BT_constraint_check. rewrite forallb_forall. split.
  - intros H n y Hn Hy. specialize (H n (proj2 (set_iter_in _ _) Hn)).
    rewrite Hy in H. apply negb_true_iff, Ascii.eqb_neq in H. assumption.
  - intros H n Hn. apply (proj1 (set_iter_in _ _)) in Hn.
    destruct (Dict.lookup assignment n) as [y|] eqn:E; [|reflexivity].
    apply negb_true_iff, Ascii.eqb_neq. eauto.
Qed.
End ForwardCheckFacts.

Lemma py_min_in d k : py_min d = Ret k -> In k (Dict.keys d).
Proof.
  destruct d as [|kv d]; simpl; [discriminate|]. intros [= <-].
  assert (H : forall (l : dict nat) (best : cell * nat), In (fold_left
             (fun best kv' => if snd kv' <? snd best then kv' else best) l best) (best :: l)).
  { induction l as [|a l IH]; intros best; simpl; [now left|].
    destruct (IH (if snd a <? snd best then a else best)) as [H|H].
    - destruct (snd a <? snd best); rewrite <- H; auto.
    - auto. }
  specialize (H d kv). apply (in_map fst) in H. exact H.
Qed.

Lemma py_min_raise d e : py_min d = Raise e -> d = [].
Proof. destruct d; simpl; [reflexivity | discriminate]. Qed.

Lemma py_min_fuel d : py_min d <> OutOfFuel.
Proof. destruct d; simpl; discriminate. Qed.

Lemma select_next_var_in assignment vals Xi :
  select_next_var assignment vals = Ret Xi ->
  In Xi (Dict.keys vals) /\ ~ In Xi (Dict.keys assignment).
Proof.
  unfold select_next_var. intros H. apply py_min_in in H.
  unfold Dict.keys in H. rewrite map_map in H. simpl in H. rewrite map_id in H.
  apply filter_In in H. destruct H as [H1 H2]. split; [assumption|].
  apply negb_true_iff in H2. now apply mem_str_false in H2.
Qed.

(** [min] raises only when every cell of the dict has been assigned. *)
Lemma select_next_var_raise assignment vals e :
  select_next_var assignment vals = Raise e ->
  incl (Dict.keys vals) (Dict.keys assignment).
Proof.
  unfold select_next_var. intros H. apply py_min_raise in H.
  apply map_eq_nil in H. intros k Hk.
  destruct (in_dec str_eq_dec k (Dict.keys assignment)) as [Hin|Hn]; [assumption|].
  assert (Hf : In k (filter (fun sqr => negb (Dict.has_key assignment sqr)) (Dict.keys vals))).
  { apply filter_In. split; [assumption|]. apply negb_true_iff. now apply mem_str_false. }
  rewrite H in Hf. destruct Hf.
Qed.

Lemma completed_true assignment :
  completed assignment = true <->
  incl (Dict.keys assignment) variables /\ incl variables (Dict.keys assignment).
Proof.
  unfold completed. fold variables. rewrite andb_true_iff, !forallb_forall.
  split; intros [H1 H2]; split; intros k Hk; apply mem_str_true; auto.
Qed.

(** ** [backtrack]: rollback (C6) and termination *)

Section BacktrackFacts.
Context {O : SetOrder}.

Section TryValues.
Variable rec : dict ascii -> dict str -> outcome (bt_result * dict ascii * dict str).
Variables (Xi : cell) (a : dict ascii) (v : dict str).
Hypothesis rec_restores : restores rec.
Hypothesis v_wf : wf_values v.
Hypothesis Xi_cell : In Xi variables.
Hypothesis Xi_free : ~ In Xi (Dict.keys a).

(** One turn of the loop, seen from the state at loop entry: after a
    failed attempt the loop goes on from that same state. *)
Lemma try_values_cons x xs :
  try_values rec Xi v (x :: xs) a v =
    if BT_constraint_check x Xi a then
      match rec (Dict.set a Xi x) (forward_check v x Xi) with
      | Ret (BT_fail, _, _) => try_values rec Xi v xs a v
      | r => r
      end
    else try_values rec Xi v xs a v.
Proof.
  simpl. destruct (BT_constraint_check x Xi a); [|reflexivity].
  destruct (rec (Dict.set a Xi x) (forward_check v x Xi)) as [[[[|] a2] v2]| |] eqn:E;
    try reflexivity.
  apply rec_restores in E; [|now apply forward_check_wf].
  destruct E as [-> ->].
  rewrite DictFacts.del_set_notin by assumption.
  rewrite DictFacts.update_same_keys; [reflexivity| |now apply wf_values_NoDup].
  rewrite (forward_check_wf v x Xi v_wf Xi_cell). now symmetry.
Qed.

Lemma try_values_fail xs a' v' :
  try_values rec Xi v xs a v = Ret (BT_fail, a', v') -> a' = a /\ v' = v.
Proof.
  induction xs as [|x xs IH].
  - simpl. now intros [= <- <-].
  - rewrite try_values_cons.
    destruct (BT_constraint_check x Xi a); [|exact IH].
    destruct (rec (Dict.set a Xi x) (forward_check v x Xi)) as [[[[|] a2] v2]| |];
      try discriminate. exact IH.
Qed.

Lemma try_values_total xs :
  (forall x, exists r, rec (Dict.set a Xi x) (forward_check v x Xi) = Ret r) ->
  exists r, try_values rec Xi v xs a v = Ret r.
Proof.
  intros Hrec. induction xs as [|x xs IH].
  - simpl. eauto.
  - rewrite try_values_cons.
    destruct (BT_constraint_check x Xi a); [|exact IH].
    destruct (Hrec x) as [[[[|] a2] v2] E]; rewrite E; eauto.
Qed.
End TryValues.

Lemma backtrack_restores fuel : restores (backtrack fuel).
Proof.
  induction fuel as [|fuel IH]; intros a v a' v' Hwf; simpl; [discriminate|].
  destruct (completed a); [discriminate|].
  destruct (select_next_var a v) as [Xi| |] eqn:Es; try discriminate.
  apply select_next_var_in in Es. destruct Es as [Hin Hfree]. rewrite Hwf in Hin.
  now apply try_values_fail.
Qed.

Lemma keys_length_le (a : dict ascii) :
  NoDup (Dict.keys a) -> incl (Dict.keys a) variables -> length (Dict.keys a) <= 81.
Proof. intros Hnd Hi. rewrite <- variables_length. now apply NoDup_incl_length. Qed.

Lemma keys_set_fresh (a : dict ascii) Xi x :
  NoDup (Dict.keys a) -> incl (Dict.keys a) variables ->
  In Xi variables -> ~ In Xi (Dict.keys a) ->
  NoDup (Dict.keys (Dict.set a Xi x)) /\ incl (Dict.keys (Dict.set a Xi x)) variables /\
  length (Dict.keys (Dict.set a Xi x)) = S (length (Dict.keys a)).
Proof.
  intros Hnd Hi HXi Hfree. rewrite DictFacts.keys_set_notin by assumption.
  split; [|split].
  - apply NoDup_app; [assumption|constructor; [intros []|constructor]|].
    intros k Hk [<-|[]]. contradiction.
  - intros k Hk. apply in_app_or in Hk. destruct Hk as [Hk|[<-|[]]]; auto.
  - rewrite length_app. simpl. lia.
Qed.

(** [backtrack] returns: every call assigns one more cell, so the depth
    of the recursion is at most the number of cells not yet assigned. *)
Lemma backtrack_total fuel : forall a v,
  wf_values v -> NoDup (Dict.keys a) -> incl (Dict.keys a) variables ->
  81 < length (Dict.keys a) + fuel ->
  exists r, backtrack fuel a v = Ret r.
Proof.
  induction fuel as [|fuel IH]; intros a v Hwf Hnd Hi Hf.
  - pose proof (keys_length_le a Hnd Hi). lia.
  - simpl. destruct (completed a) eqn:Ec; [eauto|].
    destruct (select_next_var a v) as [Xi|e|] eqn:Es.
    + apply select_next_var_in in Es. destruct Es as [Hin Hfree]. rewrite Hwf in Hin.
      apply try_values_total; auto using backtrack_restores.
      intros x. destruct (keys_set_fresh a Xi x Hnd Hi Hin Hfree) as (H1 & H2 & H3).
      apply IH; auto.
      * now apply forward_check_wf.
      * lia.
    + apply select_next_var_raise in Es. rewrite Hwf in Es.
      assert (completed a = true) by (apply completed_true; auto). congruence.
    + exfalso. eapply py_min_fuel. exact Es.
Qed.
End BacktrackFacts.

(** C6: a call of [backtrack] that returns ["fail"] leaves [csp.values]
    (and the assignment) exactly as they were when it was entered. *)
Theorem backtrack_fail_restores_domains
    (O : SetOrder) (fuel : nat) (assignment assignment' : dict ascii) (vals vals' : dict str) :
  wf_values vals ->
  backtrack fuel assignment vals = Ret (BT_fail, assignment', vals') ->
  vals' = vals /\ assignment' = assignment.
Proof.
  intros Hwf H. apply backtrack_restores in H; tauto.
Qed.

(** ** What a solved board is *)

Lemma valid_solutionb_correct board : valid_solutionb board = true -> valid_solution board.
Proof.
  unfold valid_solutionb, valid_solution. rewrite andb_true_iff, Nat.eqb_eq, forallb_forall.
  intros [Hl H]. split; [assumption|]. intros u Hu. specialize (H u Hu).
  apply andb_true_iff in H. destruct H as [Hc Hlen]. apply Nat.eqb_eq in Hlen.
  rewrite forallb_forall in Hc. apply Permutation_sym.
  apply NoDup_Permutation_bis.
  - assert (E : nodup ascii_dec cols = cols) by reflexivity.
    rewrite <- E. apply NoDup_nodup.
  - unfold unit_digits. rewrite length_map, Hlen. simpl. lia.
  - intros d Hd. specialize (Hc d Hd). apply Nat.eqb_eq in Hc.
    apply (count_occ_In ascii_dec). lia.
Qed.

Lemma extends_cluesb_correct grid board :
  extends_cluesb grid board = true -> extends_clues grid board.
Proof.
  unfold extends_cluesb, extends_clues. rewrite andb_true_iff, Nat.eqb_eq, forallb_forall.
  intros [Hl H]. revert board Hl H.
  induction grid as [|g grid IH]; intros [|b board] Hl H [|i] ch; simpl in *;
    try discriminate.
  - intros [= ->] Hne. specialize (H (ch, b) (or_introl eq_refl)). simpl in H.
    apply orb_true_iff in H. destruct H as [H|H]; apply Ascii.eqb_eq in H; congruence.
  - apply IH; [lia|]. intros p Hp. apply H. now right.
Qed.

Lemma is_puzzleb_correct grid : is_puzzleb grid = true -> is_puzzle grid.
Proof.
  unfold is_puzzleb, is_puzzle. rewrite andb_true_iff, Nat.eqb_eq, forallb_forall.
  intros [Hl H]. split; [assumption|]. apply Forall_forall. intros ch Hch.
  specialize (H ch Hch). destruct (in_dec ascii_dec ch ("0"%char :: cols)); [assumption|discriminate].
Qed.

Lemma index_of_nth {A} (g : cell -> A) d l c :
  In c l -> nth (index_of c l) (map g l) d = g c.
Proof.
  induction l as [|k l IH]; simpl; [tauto|].
  destruct (str_eq_dec c k) as [->|Hne]; [reflexivity|].
  intros [E|Hin]; [congruence | now apply IH].
Qed.

Lemma map_index_of (s : str) d l :
  NoDup l -> length s = length l -> map (fun c => nth (index_of c l) s d) l = s.
Proof.
  revert s. induction l as [|k l IH]; intros [|x s] Hnd Hl; simpl in *; try discriminate;
    [reflexivity|].
  inversion Hnd as [|? ? Hk Hnd']; subst.
  destruct (str_eq_dec k k); [|congruence]. f_equal.
  transitivity (map (fun c => nth (index_of c l) s d) l); [|apply IH; auto; lia].
  apply map_ext_in. intros c Hc.
  destruct (str_eq_dec c k) as [->|]; [contradiction | reflexivity].
Qed.

Lemma nth_error_map_variables {A} (g : cell -> A) i c :
  nth_error variables i = Some c -> nth_error (map g variables) i = Some (g c).
Proof. intros H. rewrite nth_error_map, H. reflexivity. Qed.

Lemma fold_left_app_concat {A} (f : A -> str) l : forall init,
  fold_left (fun output c => output ++ f c) l init = init ++ concat (map f l).
Proof.
  induction l as [|a l IH]; intros init; simpl; [now rewrite app_nil_r|].
  rewrite IH. now rewrite app_assoc.
Qed.

Lemma write_concat vals : write vals = concat (map (get vals) variables).
Proof. unfold write. fold variables. now rewrite fold_left_app_concat. Qed.

(** When every domain is a single digit, [write] gives these 81 digits. *)
Lemma write_singletons vals (g : cell -> ascii) :
  (forall c, In c variables -> get vals c = [g c]) -> write vals = map g variables.
Proof.
  intros H. rewrite write_concat. induction variables as [|c l IH]; simpl; [reflexivity|].
  rewrite H by now left. simpl. f_equal. apply IH. intros c' Hc'. apply H. now right.
Qed.

Lemma NoDup_map_inj {A B} (f : A -> B) l :
  NoDup l -> (forall x y, In x l -> In y l -> f x = f y -> x = y) -> NoDup (map f l).
Proof.
  induction 1 as [|a l Ha Hl IH]; simpl; intros Hinj; constructor.
  - intros H. apply in_map_iff in H. destruct H as (y & E & Hy).
    assert (y = a) by (apply Hinj; auto). subst. contradiction.
  - apply IH. intros x y Hx Hy. apply Hinj; auto.
Qed.

Lemma NoDup_map_eq {A B} (f : A -> B) l x y :
  NoDup (map f l) -> In x l -> In y l -> f x = f y -> x = y.
Proof.
  induction l as [|a l IH]; simpl; [tauto|].
  intros Hnd Hx Hy E. inversion Hnd as [|? ? Hn Hnd']; subst.
  destruct Hx as [->|Hx]; destruct Hy as [->|Hy]; auto.
  - exfalso. apply Hn. rewrite E. now apply in_map.
  - exfalso. apply Hn. rewrite <- E. now apply in_map.
Qed.

Lemma cols_NoDup : NoDup cols.
Proof.
  assert (E : nodup ascii_dec cols = cols) by reflexivity.
  rewrite <- E. apply NoDup_nodup.
Qed.

Lemma units_shape u : In u contraint_sets -> NoDup u /\ length u = 9.
Proof.
  assert (E : forallb (fun u => (if list_eq_dec str_eq_dec (nodup str_eq_dec u) u
                                 then true else false) && (length u =? 9))
                      contraint_sets = true) by (vm_compute; reflexivity).
  rewrite forallb_forall in E. intros Hu. specialize (E u Hu).
  apply andb_true_iff in E. destruct E as [E1 E2]. apply Nat.eqb_eq in E2.
  split; [|assumption].
  destruct (list_eq_dec str_eq_dec (nodup str_eq_dec u) u) as [E|]; [|discriminate].
  rewrite <- E. apply NoDup_nodup.
Qed.

Lemma every_cell_in_a_unit c : In c variables -> exists u, In u contraint_sets /\ In c u.
Proof.
  assert (E : forallb (fun c => existsb (fun u => mem_str c u) contraint_sets) variables = true)
    by (vm_compute; reflexivity).
  rewrite forallb_forall in E. intros Hc. specialize (E c Hc).
  apply existsb_exists in E. destruct E as (u & Hu & Hm). apply mem_str_true in Hm. eauto.
Qed.

(** ** The board built from a puzzle *)

Lemma lookup_combine {V} (h : ascii -> V) l : forall (s : str) i c ch,
  NoDup l -> nth_error l i = Some c -> nth_error s i = Some ch ->
  Dict.lookup (map (fun p => (fst p, h (snd p))) (combine l s)) c = Some (h ch).
Proof.
  induction l as [|k l IH]; intros [|x s] [|i] c ch Hnd Hc Hch; simpl in *; try discriminate.
  - injection Hc as ->. injection Hch as ->. destruct (str_eq_dec c c); congruence.
  - inversion Hnd as [|? ? Hk Hnd']; subst.
    destruct (str_eq_dec c k) as [->|Hne].
    + exfalso. apply Hk. eapply nth_error_In; eauto.
    + eapply IH; eauto.
Qed.

Lemma index_of_nth_error l : forall i c,
  NoDup l -> nth_error l i = Some c -> index_of c l = i.
Proof.
  induction l as [|k l IH]; intros [|i] c Hnd Hc; simpl in *; try discriminate.
  - injection Hc as ->. destruct (str_eq_dec c c); congruence.
  - inversion Hnd as [|? ? Hk Hnd']; subst.
    destruct (str_eq_dec c k) as [->|Hne].
    + exfalso. apply Hk. eapply nth_error_In; eauto.
    + f_equal. now apply IH.
Qed.

Section Board.
Variables (grid : str) (v0 : dict str).
Hypothesis grid_ok : is_puzzle grid.
Hypothesis v0_built : CSP grid = Ret v0.

Lemma board_eq :
  v0 = map (fun p => (fst p, initial_domain (snd p))) (combine variables grid).
Proof.
  destruct grid_ok as [Hl _]. rewrite CSP_spec, Hl in v0_built. simpl in v0_built.
  now injection v0_built.
Qed.

Lemma board_wf : wf_values v0.
Proof.
  unfold wf_values. rewrite board_eq. apply keys_combine.
  destruct grid_ok as [Hl _]. rewrite Hl, variables_length. lia.
Qed.

Lemma board_get i c ch :
  nth_error variables i = Some c -> nth_error grid i = Some ch ->
  get v0 c = initial_domain ch.
Proof.
  intros Hc Hch. unfold get. rewrite board_eq.
  now rewrite (lookup_combine initial_domain variables grid i c ch variables_NoDup Hc Hch).
Qed.

Lemma cell_position c :
  In c variables ->
  exists i ch, nth_error variables i = Some c /\ nth_error grid i = Some ch /\
               In ch ("0"%char :: cols).
Proof.
  intros Hc. apply In_nth_error in Hc. destruct Hc as [i Hi]. exists i.
  assert (Hlt : i < length grid).
  { destruct grid_ok as [Hl _]. rewrite Hl, <- variables_length.
    apply nth_error_Some. congruence. }
  destruct (nth_error grid i) as [ch|] eqn:E.
  - exists ch. split; [assumption|]. split; [reflexivity|].
    destruct grid_ok as [_ Hd]. rewrite Forall_forall in Hd.
    apply Hd. eapply nth_error_In; eauto.
  - apply nth_error_None in E. lia.
Qed.

(** The candidates of the initial board are digits 1..9. *)
Lemma board_digits c x : In c variables -> In x (get v0 c) -> In x cols.
Proof.
  intros Hc Hx. destruct (cell_position c Hc) as (i & ch & Hi & Hg & Hd).
  rewrite (board_get i c ch Hi Hg) in Hx. unfold initial_domain in Hx.
  destruct (Ascii.eqb ch "0") eqn:E; [assumption|].
  destruct Hx as [<-|[]]. destruct Hd as [<-|Hd]; [|assumption].
  now rewrite Ascii.eqb_refl in E.
Qed.

Section FinalBoard.
Variables (vf : dict str) (g : cell -> ascii).
Hypothesis final_single : forall c, In c variables -> get vf c = [g c].
Hypothesis final_within : forall c, In c variables -> In (g c) (get v0 c).
Hypothesis final_differ : forall c d, In d (neighbors c) -> g c <> g d.

Lemma final_board_valid : valid_solution (write vf).
Proof.
  rewrite (write_singletons vf g final_single). split.
  - now rewrite length_map, variables_length.
  - intros u Hu. destruct (units_shape u Hu) as [Hnd Hlen].
    assert (E : unit_digits (map g variables) u = map g u).
    { unfold unit_digits, board_at. apply map_ext_in. intros c Hc.
      apply index_of_nth. eapply units_in_variables; eauto. }
    rewrite E. apply NoDup_Permutation_bis.
    + apply NoDup_map_inj; [assumption|]. intros x y Hx Hy Hxy.
      destruct (str_eq_dec x y) as [|Hne]; [assumption|]. exfalso.
      apply (final_differ x y); [|assumption].
      apply in_neighbors_iff. split; [congruence|]. eauto.
    + rewrite length_map, Hlen. simpl. lia.
    + intros x Hx. apply in_map_iff in Hx. destruct Hx as (c & <- & Hc).
      assert (Hv : In c variables) by (eapply units_in_variables; eauto).
      eapply board_digits; eauto.
Qed.

Lemma final_board_extends : extends_clues grid (write vf).
Proof.
  rewrite (write_singletons vf g final_single). intros i ch Hg Hne.
  assert (Hlt : i < length variables).
  { rewrite variables_length. destruct grid_ok as [Hl _]. rewrite <- Hl.
    apply nth_error_Some. congruence. }
  destruct (nth_error variables i) as [c|] eqn:Ec;
    [|apply nth_error_None in Ec; lia].
  rewrite (nth_error_map_variables g i c Ec). f_equal.
  assert (Hc : In c variables) by (eapply nth_error_In; eauto).
  pose proof (final_within c Hc) as Hw. rewrite (board_get i c ch Ec Hg) in Hw.
  unfold initial_domain in Hw.
  destruct (Ascii.eqb ch "0") eqn:E; [apply Ascii.eqb_eq in E; congruence|].
  destruct Hw as [<-|[]]. reflexivity.
Qed.
End FinalBoard.

(** *** The cells of a solution that extends the clues *)

Variable s : str.
Hypothesis s_valid : valid_solution s.
Hypothesis s_extends : extends_clues grid s.

Lemma sol_differ c d : In d (neighbors c) -> board_at s c <> board_at s d.
Proof.
  intros H. apply in_neighbors_iff in H. destruct H as (Hne & u & Hu & Hc & Hd).
  destruct s_valid as [_ Hs]. specialize (Hs u Hu).
  assert (Hnd : NoDup (unit_digits s u)).
  { eapply Permutation_NoDup; [apply Permutation_sym; exact Hs | apply cols_NoDup]. }
  intros E. apply Hne. symmetry.
  exact (NoDup_map_eq (board_at s) u c d Hnd Hc Hd E).
Qed.

Lemma sol_digit c : In c variables -> In (board_at s c) cols.
Proof.
  intros Hc. destruct (every_cell_in_a_unit c Hc) as (u & Hu & Hcu).
  destruct s_valid as [_ Hs]. apply (Permutation_in _ (Hs u Hu)).
  unfold unit_digits. now apply in_map.
Qed.

Lemma sol_in_board c : In c variables -> In (board_at s c) (get v0 c).
Proof.
  intros Hc. destruct (cell_position c Hc) as (i & ch & Hi & Hg & Hd).
  rewrite (board_get i c ch Hi Hg). unfold initial_domain.
  destruct (Ascii.eqb ch "0") eqn:E; [now apply sol_digit|].
  left. unfold board_at. rewrite (index_of_nth_error variables i c variables_NoDup Hi).
  assert (Hs : nth_error s i = Some ch).
  { apply s_extends; [assumption|]. intros ->. discriminate. }
  symmetry. now apply nth_error_nth.
Qed.
End Board.

(** ** Propagation keeps every solution *)

Section Propagation.
Context {O : SetOrder}.
Variables (v0 : dict str) (sol : cell -> ascii).
Hypothesis sol_differ : forall c d, In d (neighbors c) -> sol c <> sol d.

Lemma revise_keeps_solution v Xi Xj :
  In Xi variables -> In Xj (neighbors Xi) -> keeps_solution v0 sol v ->
  keeps_solution v0 sol (snd (revise v Xi Xj)) /\ get (snd (revise v Xi Xj)) Xi <> [].
Proof.
  intros HXi HXj (Hwf & Hsol & Hin).
  assert (HXj' : In Xj variables) by now apply neighbors_in_variables in HXj.
  assert (Hkeep : In (sol Xi) (get (snd (revise v Xi Xj)) Xi)).
  { rewrite revise_domain. apply filter_In. split; [now apply Hsol|].
    apply negb_true_iff. rewrite AC_constraint_check_neighbor by assumption.
    destruct (forallb (fun y => Ascii.eqb y (sol Xi)) (get v Xj)) eqn:E; [|reflexivity].
    rewrite forallb_forall in E. specialize (E (sol Xj) (Hsol Xj HXj')).
    apply Ascii.eqb_eq in E. exfalso. apply (sol_differ Xi Xj); auto. }
  split; [split; [|split]|].
  - unfold wf_values. now rewrite revise_keys.
  - intros c Hc. destruct (str_eq_dec c Xi) as [->|Hne]; [assumption|].
    rewrite revise_others by assumption. now apply Hsol.
  - intros c Hc. destruct (str_eq_dec c Xi) as [->|Hne].
    + rewrite revise_domain. intros x Hx. apply filter_In in Hx. apply Hin; tauto.
    + rewrite revise_others by assumption. now apply Hin.
  - intros E. rewrite E in Hkeep. destruct Hkeep.
Qed.

Lemma requeue_is_arc Xi Xj : In Xi variables -> Forall is_arc (requeue Xi Xj).
Proof.
  intros HXi. apply Forall_forall. intros a Ha. apply requeue_in in Ha.
  destruct Ha as (Xk & -> & Hk). split; simpl.
  - now apply neighbors_in_variables in Hk.
  - now apply neighbors_sym.
Qed.

Lemma constraints_is_arc : Forall is_arc (set_iter arc constraints).
Proof.
  apply Forall_forall. intros [X Y] Ha. apply (proj1 (set_iter_in _ _)) in Ha.
  exact (proj1 (in_constraints_iff X Y) Ha).
Qed.

Lemma AC3_loop_keeps_solution fuel : forall q v b v',
  Forall is_arc q -> keeps_solution v0 sol v ->
  AC3_loop fuel q v = Ret (b, v') -> b = true /\ keeps_solution v0 sol v'.
Proof.
  induction fuel as [|fuel IH]; intros q v b v' Hq Hv; simpl; [discriminate|].
  destruct q as [|[Xi Xj] q]; [intros [= <- <-]; auto|].
  inversion Hq as [|? ? [HXi HXj] Hq']; subst. simpl in HXi, HXj.
  destruct (revise_keeps_solution v Xi Xj HXi HXj Hv) as [Hv1 Hne].
  destruct (revise v Xi Xj) as [revised v1]. simpl in Hv1, Hne.
  destruct revised.
  - destruct (length (get v1 Xi) =? 0) eqn:El.
    + apply length_zero_iff in El. contradiction.
    + apply IH; [|assumption]. apply Forall_app. split; [assumption|].
      now apply requeue_is_arc.
  - now apply IH.
Qed.

Lemma AC3_keeps_solution v :
  keeps_solution v0 sol v -> exists v', AC3 v = Ret (true, v') /\ keeps_solution v0 sol v'.
Proof.
  intros Hv. destruct (AC3_terminates v) as (b & v' & E).
  assert (H : b = true /\ keeps_solution v0 sol v').
  { revert E. unfold AC3. generalize (set_iter arc constraints) constraints_is_arc.
    intros q Hq E. eapply AC3_loop_keeps_solution; eauto. }
  destruct H as [-> Hv']. eauto.
Qed.
End Propagation.

(** ** Search: what a successful [backtrack] leaves, and that it succeeds *)

Section Search.
Context {O : SetOrder}.
Variable v0 : dict str.

Lemma consistent_step a v Xi x :
  consistent v0 a v -> In Xi variables -> ~ In Xi (Dict.keys a) ->
  In x (get v Xi) -> BT_constraint_check x Xi a = true ->
  consistent v0 (Dict.set a Xi x) (forward_check v x Xi).
Proof.
  intros (Hwf & Hval & Hdiff & Hin) HXi Hfree Hx Hchk.
  rewrite BT_constraint_check_true in Hchk.
  assert (Hl : forall c y, Dict.lookup (Dict.set a Xi x) c = Some y ->
                           (c = Xi /\ y = x) \/ (c <> Xi /\ Dict.lookup a c = Some y)).
  { intros c y H. destruct (str_eq_dec Xi c) as [<-|Hne].
    - rewrite DictFacts.lookup_set_eq in H. left. split; congruence.
    - rewrite DictFacts.lookup_set_ne in H by assumption. right. split; congruence. }
  split; [now apply forward_check_wf|]. split; [|split].
  - intros c y H. rewrite forward_check_get.
    destruct (Hl c y H) as [[-> ->]|[Hne Hc]].
    + destruct (str_eq_dec Xi Xi); congruence.
    + destruct (str_eq_dec c Xi); [contradiction|].
      rewrite (Hval c y Hc). destruct (mem_str c (neighbors Xi)) eqn:Em; [|reflexivity].
      apply mem_str_true in Em. apply replace_absent.
      intros [E|[]]. exact (Hchk c y Em Hc E).
  - intros c d y z Hc Hd Hn.
    destruct (Hl c y Hc) as [[-> ->]|[Hnc Hc']]; destruct (Hl d z Hd) as [[-> ->]|[Hnd Hd']].
    + now apply neighbors_irrefl in Hn.
    + intros E. exact (Hchk d z Hn Hd' (eq_sym E)).
    + apply neighbors_sym in Hn. exact (Hchk c y Hn Hc').
    + eapply Hdiff; eauto.
  - intros c Hc y Hy. rewrite forward_check_get in Hy.
    destruct (str_eq_dec c Xi) as [->|Hne].
    + destruct Hy as [<-|[]]. now apply Hin.
    + apply Hin; [assumption|].
      destruct (mem_str c (neighbors Xi)); [now apply replace_incl in Hy | assumption].
Qed.

Lemma try_values_success rec Xi a v :
  restores rec -> wf_values v -> In Xi variables -> ~ In Xi (Dict.keys a) ->
  consistent v0 a v ->
  (forall a1 v1 a' v', consistent v0 a1 v1 -> rec a1 v1 = Ret (BT_True, a', v') ->
                       consistent v0 a' v' /\ completed a' = true) ->
  forall xs a' v', incl xs (get v Xi) ->
    try_values rec Xi v xs a v = Ret (BT_True, a', v') ->
    consistent v0 a' v' /\ completed a' = true.
Proof.
  intros Hres Hwf HXi Hfree Hcons Hrec xs a' v'.
  induction xs as [|x xs IH]; intros Hincl; [discriminate|].
  assert (Hxs : incl xs (get v Xi)) by (intros y Hy; apply Hincl; now right).
  rewrite try_values_cons by assumption.
  destruct (BT_constraint_check x Xi a) eqn:Ec; [|now apply IH].
  destruct (rec (Dict.set a Xi x) (forward_check v x Xi)) as [[[[|] a2] v2]| |] eqn:E;
    try discriminate.
  - intros [= <- <-]. eapply Hrec; [|exact E].
    apply consistent_step; auto. apply Hincl. now left.
  - now apply IH.
Qed.

Lemma backtrack_success fuel : forall a v a' v',
  consistent v0 a v -> backtrack fuel a v = Ret (BT_True, a', v') ->
  consistent v0 a' v' /\ completed a' = true.
Proof.
  induction fuel as [|fuel IH]; intros a v a' v' Hcons; simpl; [discriminate|].
  destruct (completed a) eqn:Ec; [intros [= <- <-]; auto|].
  destruct (select_next_var a v) as [Xi| |] eqn:Es; try discriminate.
  apply select_next_var_in in Es. destruct Es as [Hin Hfree].
  pose proof Hcons as (Hwf & _). rewrite Hwf in Hin.
  apply try_values_success; auto using backtrack_restores, incl_refl.
Qed.

(** *** The search follows a solution, if there is one *)

Variable sol : cell -> ascii.
Hypothesis sol_differ : forall c d, In d (neighbors c) -> sol c <> sol d.

Lemma follows_check a v Xi : follows sol a v -> BT_constraint_check (sol Xi) Xi a = true.
Proof.
  intros [_ Ha]. apply BT_constraint_check_true. intros n y Hn Hy E.
  apply Ha in Hy. subst y. apply (sol_differ Xi n); auto.
Qed.

Lemma follows_step a v Xi :
  follows sol a v -> follows sol (Dict.set a Xi (sol Xi)) (forward_check v (sol Xi) Xi).
Proof.
  intros [Hv Ha]. split.
  - intros c Hc. rewrite forward_check_get.
    destruct (str_eq_dec c Xi) as [->|Hne]; [now left|].
    destruct (mem_str c (neighbors Xi)) eqn:Em; [|now apply Hv].
    apply mem_str_true in Em. apply replace_in. split; [now apply Hv|].
    intros E. apply (sol_differ Xi c); auto.
  - intros c x H. destruct (str_eq_dec Xi c) as [<-|Hne].
    + rewrite DictFacts.lookup_set_eq in H. congruence.
    + rewrite DictFacts.lookup_set_ne in H by assumption. now apply Ha.
Qed.

Lemma try_values_finds rec Xi a v :
  restores rec -> wf_values v -> In Xi variables -> ~ In Xi (Dict.keys a) ->
  follows sol a v ->
  (forall x, exists r, rec (Dict.set a Xi x) (forward_check v x Xi) = Ret r) ->
  (exists a' v', rec (Dict.set a Xi (sol Xi)) (forward_check v (sol Xi) Xi)
                 = Ret (BT_True, a', v')) ->
  forall xs, In (sol Xi) xs ->
    exists a' v', try_values rec Xi v xs a v = Ret (BT_True, a', v').
Proof.
  intros Hres Hwf HXi Hfree Hfol Htot Hsol xs.
  induction xs as [|x xs IH]; intros Hin; [destruct Hin|].
  rewrite try_values_cons by assumption.
  destruct (ascii_dec x (sol Xi)) as [->|Hne].
  - rewrite (follows_check a v Xi Hfol). destruct Hsol as (a' & v' & E). rewrite E. eauto.
  - assert (Hin' : In (sol Xi) xs) by (destruct Hin; [contradiction | assumption]).
    destruct (BT_constraint_check x Xi a); [|now apply IH].
    destruct (Htot x) as [[[[|] a2] v2] E]; rewrite E; eauto.
Qed.

Lemma backtrack_finds fuel : forall a v,
  wf_values v -> NoDup (Dict.keys a) -> incl (Dict.keys a) variables ->
  follows sol a v -> 81 < length (Dict.keys a) + fuel ->
  exists a' v', backtrack fuel a v = Ret (BT_True, a', v').
Proof.
  induction fuel as [|fuel IH]; intros a v Hwf Hnd Hi Hfol Hf.
  - pose proof (keys_length_le a Hnd Hi). lia.
  - simpl. destruct (completed a) eqn:Ec; [eauto|].
    destruct (select_next_var a v) as [Xi|e|] eqn:Es.
    + apply select_next_var_in in Es. destruct Es as [Hin Hfree]. rewrite Hwf in Hin.
      assert (Hstep : forall x,
                 NoDup (Dict.keys (Dict.set a Xi x)) /\
                 incl (Dict.keys (Dict.set a Xi x)) variables /\
                 81 < length (Dict.keys (Dict.set a Xi x)) + fuel).
      { intros x. destruct (keys_set_fresh a Xi x Hnd Hi Hin Hfree) as (H1 & H2 & H3).
        repeat split; auto. lia. }
      apply try_values_finds; auto using backtrack_restores.
      * intros x. destruct (Hstep x) as (H1 & H2 & H3).
        apply backtrack_total; auto. now apply forward_check_wf.
      * destruct (Hstep (sol Xi)) as (H1 & H2 & H3).
        apply IH; auto; [now apply forward_check_wf | now apply follows_step].
      * destruct Hfol as [Hv _]. now apply Hv.
    + apply select_next_var_raise in Es. rewrite Hwf in Es.
      assert (completed a = true) by (apply completed_true; auto). congruence.
    + exfalso. eapply py_min_fuel. exact Es.
Qed.
End Search.

(** ** The solver on a solvable puzzle (C1, C2) *)

Lemma solved_true vals :
  solved vals = true <-> (forall c, In c variables -> length (get vals c) <= 1).
Proof.
  unfold solved. fold variables. rewrite forallb_forall. split; intros H c Hc.
  - specialize (H c Hc). apply negb_true_iff, Nat.ltb_ge in H. assumption.
  - apply negb_true_iff, Nat.ltb_ge. auto.
Qed.

Lemma single_candidate (dom : str) x : In x dom -> length dom <= 1 -> dom = [x].
Proof.
  destruct dom as [|y [|z dom]]; simpl; intros Hin Hl.
  - destruct Hin.
  - destruct Hin as [->|[]]. reflexivity.
  - lia.
Qed.

Section SolverCorrect.
Context {O : SetOrder}.
Variable grid : str.
Hypothesis grid_ok : is_puzzle grid.
Hypothesis grid_solvable : solvable grid.

Lemma main_solves :
  exists board tag,
    main grid = Ret (board ++ py " " ++ tag) /\
    (tag = py "AC3" \/ tag = py "BTS") /\
    valid_solution board /\ extends_clues grid board.
Proof.
  destruct grid_solvable as (s & Hs & He).
  destruct (CSP grid) as [v0| |] eqn:Ecsp;
    try (rewrite CSP_spec in Ecsp; destruct grid_ok as [Hl _]; rewrite Hl in Ecsp;
         discriminate).
  pose proof (board_wf grid v0 grid_ok Ecsp) as Hwf0.
  pose proof (sol_differ s Hs) as Hdiff.
  assert (Hk0 : keeps_solution v0 (board_at s) v0).
  { split; [assumption|]. split.
    - intros c Hc. eapply sol_in_board; eauto.
    - intros c _. apply incl_refl. }
  destruct (AC3_keeps_solution v0 (board_at s) Hdiff v0 Hk0) as (v1 & Eac & Hwf1 & Hsol1 & Hin1).
  unfold main. rewrite Ecsp. unfold solver. rewrite Eac.
  destruct (solved v1) eqn:Esol.
  - (* propagation alone: the domains are the solution *)
    exists (write v1), (py "AC3"). split; [reflexivity|]. split; [now left|].
    rewrite solved_true in Esol.
    assert (Hsingle : forall c, In c variables -> get v1 c = [board_at s c]).
    { intros c Hc. apply single_candidate; auto. }
    assert (Hwithin : forall c, In c variables -> In (board_at s c) (get v0 c)).
    { intros c Hc. eapply sol_in_board; eauto. }
    split.
    + exact (final_board_valid grid v0 grid_ok Ecsp v1 (board_at s) Hsingle Hwithin Hdiff).
    + exact (final_board_extends grid v0 grid_ok Ecsp v1 (board_at s) Hsingle Hwithin).
  - (* search *)
    assert (Hfol : follows (board_at s) [] v1) by (split; [assumption | discriminate]).
    assert (Hfuel : 81 < length (Dict.keys (@nil (cell * ascii))) + S (length variables))
      by (rewrite variables_length; simpl; lia).
    destruct (backtrack_finds (board_at s) Hdiff (S (length variables)) [] v1
                Hwf1 (NoDup_nil _) (incl_nil_l _) Hfol Hfuel) as (a' & v2 & Ebt).
    assert (Hc1 : consistent v1 [] v1).
    { split; [assumption|]. split; [discriminate|]. split; [discriminate|].
      intros c _. apply incl_refl. }
    destruct (backtrack_success v1 _ _ _ _ _ Hc1 Ebt) as [(Hwf2 & Hval & Hdif2 & Hin2) Hcomp].
    apply completed_true in Hcomp. destruct Hcomp as [_ Hall].
    unfold BTS. rewrite Ebt.
    exists (write v2), (py "BTS"). split; [reflexivity|]. split; [now right|].
    set (g := fun c => match Dict.lookup a' c with Some x => x | None => "0"%char end).
    assert (Hg : forall c, In c variables -> Dict.lookup a' c = Some (g c)).
    { intros c Hc. destruct (DictFacts.in_keys_lookup a' c (Hall c Hc)) as [x Hx].
      unfold g. now rewrite Hx. }
    assert (Hsingle : forall c, In c variables -> get v2 c = [g c]).
    { intros c Hc. apply Hval. now apply Hg. }
    assert (Hwithin : forall c, In c variables -> In (g c) (get v0 c)).
    { intros c Hc. apply Hin1; [assumption|]. apply Hin2; [assumption|].
      rewrite (Hsingle c Hc). now left. }
    assert (Hdiffer : forall c d, In d (neighbors c) -> g c <> g d).
    { intros c d Hd. destruct (neighbors_in_variables c d Hd) as [Hc Hd'].
      eapply Hdif2; eauto. }
    split.
    + exact (final_board_valid grid v0 grid_ok Ecsp v2 g Hsingle Hwithin Hdiffer).
    + exact (final_board_extends grid v0 grid_ok Ecsp v2 g Hsingle Hwithin).
Qed.
End SolverCorrect.

(** The script returns a line on every grid that [CSP] accepts: neither
    loop runs out of fuel, and [min] is never called on an empty dict. *)
Lemma AC3_loop_wf {O : SetOrder} fuel : forall q v b v',
  wf_values v -> AC3_loop fuel q v = Ret (b, v') -> wf_values v'.
Proof.
  induction fuel as [|fuel IH]; intros q v b v' Hwf; simpl; [discriminate|].
  destruct q as [|[Xi Xj] q]; [now intros [= <- <-]|].
  assert (Hwf1 : wf_values (snd (revise v Xi Xj)))
    by (unfold wf_values; now rewrite revise_keys).
  destruct (revise v Xi Xj) as [revised v1]. simpl in Hwf1.
  destruct revised; [destruct (length (get v1 Xi) =? 0)|].
  - now intros [= <- <-].
  - now apply IH.
  - now apply IH.
Qed.

Lemma main_returns (O : SetOrder) (grid : str) :
  81 <= length grid -> exists line, main grid = Ret line.
Proof.
  intros Hl. unfold main. rewrite CSP_spec.
  assert (E : (length grid <? 81) = false) by (apply Nat.ltb_ge; exact Hl).
  rewrite E.
  set (v0 := map (fun p => (fst p, initial_domain (snd p))) (combine variables grid)).
  assert (Hwf0 : wf_values v0).
  { unfold wf_values, v0. apply keys_combine. now rewrite variables_length. }
  unfold solver. destruct (AC3_terminates v0) as (b & v1 & Eac). rewrite Eac.
  assert (Hwf1 : wf_values v1) by (eapply AC3_loop_wf; [exact Hwf0 | exact Eac]).
  destruct (solved v1); [eauto|].
  assert (Hfuel : 81 < length (Dict.keys (@nil (cell * ascii))) + S (length variables))
    by (rewrite variables_length; simpl; lia).
  destruct (backtrack_total (S (length variables)) [] v1 Hwf1 (NoDup_nil _) (incl_nil_l _) Hfuel)
    as [[[r a] v2] Ebt].
  unfold BTS. rewrite Ebt. eauto.
Qed.

(** C1: on an 81-character grid over '0'..'9' that has a solution
    extending its clues, the solver returns a line made of a board, a
    space and a tag, and the board is a valid solution: it has 81
    characters and in each of the 27 units its 9 digits are a permutation
    of 1..9. *)
Theorem solver_output_is_valid_solution (O : SetOrder) (grid : str) :
  is_puzzle grid -> solvable grid ->
  exists board tag,
    main grid = Ret (board ++ py " " ++ tag) /\
    (tag = py "AC3" \/ tag = py "BTS") /\
    length board = 81 /\
    (forall u, In u contraint_sets -> Permutation (unit_digits board u) cols).
Proof.
  intros Hg Hs. destruct (main_solves grid Hg Hs) as (board & tag & E & Ht & [Hl Hv] & _).
  exists board, tag. auto.
Qed.

(** C2: on such a grid, every position whose character is not '0' holds
    the same character in the board the solver returns. *)
Theorem solver_output_keeps_clues (O : SetOrder) (grid : str) :
  is_puzzle grid -> solvable grid ->
  exists board tag,
    main grid = Ret (board ++ py " " ++ tag) /\
    length board = 81 /\
    (forall i ch, nth_error grid i = Some ch -> ch <> "0"%char ->
                  nth_error board i = Some ch).
Proof.
  intros Hg Hs. destruct (main_solves grid Hg Hs) as (board & tag & E & _ & [Hl _] & He).
  exists board, tag. auto.
Qed.

(** ** The guard [solved] and the tag of the output line (C10, C3) *)

Section SingletonBoard.
Context {O : SetOrder}.
Variable v : dict str.
Hypothesis v_single : forall k, length (get v k) <= 1.

Lemma revise_singleton_unchanged Xi Xj :
  fst (revise v Xi Xj) = false -> snd (revise v Xi Xj) = v.
Proof. rewrite revise_spec. simpl. intros ->. reflexivity. Qed.

Lemma revise_singleton_wipes Xi Xj :
  fst (revise v Xi Xj) = true -> get (snd (revise v Xi Xj)) Xi = [].
Proof.
  rewrite revise_domain, revise_spec. simpl. intros H.
  specialize (v_single Xi). destruct (get v Xi) as [|x [|y dom]]; simpl in *;
    [reflexivity| |lia].
  rewrite orb_false_r in H. now rewrite H.
Qed.

(** On a board of single candidates the loop stops at the first arc
    whose revision takes something out. *)
Lemma AC3_loop_singletons q : forall fuel,
  length q < fuel ->
  AC3_loop fuel q v =
    match find (fun a => fst (revise v (fst a) (snd a))) q with
    | None => Ret (true, v)
    | Some a => Ret (false, snd (revise v (fst a) (snd a)))
    end.
Proof.
  induction q as [|[Xi Xj] q IH]; intros [|fuel] Hf; try (simpl in Hf; lia);
    [reflexivity|].
  pose proof (revise_singleton_unchanged Xi Xj) as Hu.
  pose proof (revise_singleton_wipes Xi Xj) as Hw.
  cbn [AC3_loop find fst snd].
  destruct (revise v Xi Xj) as [revised v1] eqn:Er. cbn [fst snd] in *. destruct revised.
  - cbv beta iota. cbn [fst snd]. rewrite Er. cbn [snd]. now rewrite (Hw eq_refl).
  - rewrite (Hu eq_refl). apply IH. simpl in Hf. lia.
Qed.
End SingletonBoard.

Lemma list_sum_all_ones (f : cell -> nat) l :
  (forall k, In k l -> f k = 1) -> list_sum (map f l) = length l.
Proof.
  induction l as [|k l IH]; simpl; intros H; [reflexivity|].
  rewrite H by now left. simpl. f_equal. apply IH. intros k' Hk'. apply H. now right.
Qed.

Lemma list_sum_all_but_one (f : cell -> nat) l Xi :
  NoDup l -> In Xi l -> f Xi = 0 -> (forall k, In k l -> k <> Xi -> f k = 1) ->
  S (list_sum (map f l)) = length l.
Proof.
  induction l as [|k l IH]; simpl; intros Hnd Hin H0 H1; [destruct Hin|].
  inversion Hnd as [|? ? Hk Hnd']; subst.
  destruct Hin as [->|Hin].
  - rewrite H0. simpl. f_equal. apply list_sum_all_ones.
    intros k Hkl. apply H1; [now right|]. intros ->. contradiction.
  - rewrite H1; [|now left|intros ->; contradiction].
    simpl. f_equal. apply IH; auto.
Qed.

Lemma length_concat_map (f : cell -> str) l :
  length (concat (map f l)) = list_sum (map (fun c => length (f c)) l).
Proof.
  induction l as [|k l IH]; simpl; [reflexivity|]. now rewrite length_app, IH.
Qed.

(** C3 on [grid_conflict], whatever the order of the queue: [AC3] returns
    [False] with the domain of some cell emptied, [solved] accepts that
    state, and the line is tagged AC3 although not every domain is a
    singleton; its board has 80 characters. *)
Theorem solver_tags_AC3_with_an_emptied_domain (O : SetOrder) :
  is_puzzle grid_conflict /\
  exists vals board,
    AC3 (board_of grid_conflict) = Ret (false, vals) /\
    (exists c, In c variables /\ get vals c = []) /\
    solved vals = true /\
    main grid_conflict = Ret (board ++ py " AC3") /\
    length board = 80.
Proof.
  split; [apply is_puzzleb_correct; vm_compute; reflexivity|].
  set (v0 := board_of grid_conflict).
  assert (Hcsp : CSP grid_conflict = Ret v0) by (vm_compute; reflexivity).
  assert (Hsingle : forall k, length (get v0 k) = 1 \/ (~ In k variables /\ get v0 k = [])).
  { intros k. destruct (in_dec str_eq_dec k variables) as [Hin|Hn].
    - left. assert (E : forallb (fun k => length (get v0 k) =? 1) variables = true)
        by (vm_compute; reflexivity).
      rewrite forallb_forall in E. now apply Nat.eqb_eq, E.
    - right. split; [assumption|]. unfold get.
      assert (Hk : Dict.keys v0 = variables) by (vm_compute; reflexivity).
      rewrite <- Hk in Hn. apply DictFacts.lookup_none_iff in Hn. now rewrite Hn. }
  assert (Hle : forall k, length (get v0 k) <= 1).
  { intros k. destruct (Hsingle k) as [->|[_ ->]]; simpl; lia. }
  assert (Hrev : fst (revise v0 (py "A1") (py "A2")) = true).
  { rewrite revise_spec. vm_compute. reflexivity. }
  assert (Harc : In (py "A1", py "A2") (set_iter arc constraints)).
  { apply set_iter_in. apply (proj2 (in_constraints_iff _ _)).
    split; apply mem_str_true; vm_compute; reflexivity. }
  assert (Eac : exists Xi Xj, In Xi variables /\ fst (revise v0 Xi Xj) = true /\
                              AC3 v0 = Ret (false, snd (revise v0 Xi Xj))).
  { unfold AC3. rewrite (AC3_loop_singletons v0 Hle) by lia.
    destruct (find (fun a => fst (revise v0 (fst a) (snd a))) (set_iter arc constraints))
      as [[Xi Xj]|] eqn:Ef.
    - apply find_some in Ef. destruct Ef as [Hin Hr]. simpl in Hr. exists Xi, Xj.
      split; [|split; [assumption|reflexivity]].
      apply (proj1 (set_iter_in _ _)) in Hin.
      exact (proj1 (proj1 (in_constraints_iff _ _) Hin)).
    - pose proof (find_none _ _ Ef _ Harc) as Hn. cbn [fst snd] in Hn.
      rewrite Hrev in Hn. discriminate. }
  destruct Eac as (Xi & Xj & HXi & Hr & Eac).
  set (v1 := snd (revise v0 Xi Xj)) in *.
  assert (Hempty : get v1 Xi = []) by now apply revise_singleton_wipes.
  assert (Hother : forall k, k <> Xi -> get v1 k = get v0 k)
    by (intros k Hk; now apply revise_others).
  assert (Hsolved : solved v1 = true).
  { apply solved_true. intros c _. destruct (str_eq_dec c Xi) as [->|Hne].
    - rewrite Hempty. simpl. lia.
    - rewrite Hother by assumption. apply Hle. }
  exists v1, (write v1). split; [exact Eac|]. split; [eauto|]. split; [exact Hsolved|].
  split.
  - unfold main. rewrite Hcsp. unfold solver. rewrite Eac, Hsolved. reflexivity.
  - rewrite write_concat, length_concat_map.
    assert (H : S (list_sum (map (fun c => length (get v1 c)) variables)) = length variables).
    { apply list_sum_all_but_one with (Xi := Xi); auto using variables_NoDup.
      - now rewrite Hempty.
      - intros k Hk Hne. rewrite Hother by assumption.
        destruct (Hsingle k) as [H|[H _]]; [assumption | contradiction]. }
    rewrite variables_length in H. lia.
Qed.

(** C10: [solved] returns [True] exactly when no domain has more than
    one value.  A state with an emptied domain and no domain of two or
    more values is therefore reported as solved, and the solver, which
    looks at nothing else after [AC3], writes it out with the tag AC3. *)
Theorem solved_iff_no_domain_above_one (O : SetOrder) (vals : dict str) :
  (solved vals = true <-> (forall c, In c variables -> ~ 1 < length (get vals c))) /\
  ((exists c, In c variables /\ get vals c = []) ->
   (forall c, In c variables -> length (get vals c) <= 1) ->
   solved vals = true /\
   (forall vals0 b, AC3 vals0 = Ret (b, vals) ->
                    solver vals0 = Ret (write vals ++ py " AC3"))).
Proof.
  split.
  - rewrite solved_true. split; intros H c Hc; specialize (H c Hc); lia.
  - intros _ Hle. assert (Hs : solved vals = true) by now apply solved_true.
    split; [exact Hs|]. intros vals0 b E. unfold solver. now rewrite E, Hs.
Qed.

(** ** The theorems at concrete inputs *)

Lemma grid_example_is_puzzle : is_puzzle grid_example.
Proof. apply is_puzzleb_correct. vm_compute. reflexivity. Qed.

Lemma grid_example_solvable : solvable grid_example.
Proof.
  exists solution_example. split.
  - apply valid_solutionb_correct. vm_compute. reflexivity.
  - apply extends_cluesb_correct. vm_compute. reflexivity.
Qed.

(** C1 at the puzzle of the end-to-end scenario. *)
Lemma solver_output_is_valid_solution_on_example :
  is_puzzle grid_example /\ solvable grid_example /\
  exists board tag,
    main grid_example = Ret (board ++ py " " ++ tag) /\
    (tag = py "AC3" \/ tag = py "BTS") /\
    length board = 81 /\
    (forall u, In u contraint_sets -> Permutation (unit_digits board u) cols).
Proof.
  split; [exact grid_example_is_puzzle|]. split; [exact grid_example_solvable|].
  apply (solver_output_is_valid_solution insertion_order grid_example).
  - exact grid_example_is_puzzle.
  - exact grid_example_solvable.
Defined.

(** C2 at the puzzle of the end-to-end scenario. *)
Lemma solver_output_keeps_clues_on_example :
  is_puzzle grid_example /\ solvable grid_example /\
  exists board tag,
    main grid_example = Ret (board ++ py " " ++ tag) /\
    length board = 81 /\
    (forall i ch, nth_error grid_example i = Some ch -> ch <> "0"%char ->
                  nth_error board i = Some ch).
Proof.
  split; [exact grid_example_is_puzzle|]. split; [exact grid_example_solvable|].
  apply (solver_output_keeps_clues insertion_order grid_example).
  - exact grid_example_is_puzzle.
  - exact grid_example_solvable.
Defined.

(** C6 at [dead_end]: the search assigns 1 to A1, which empties A2,
    fails one level down, and returns ["fail"] with the domains it was
    given. *)
Lemma backtrack_fail_restores_domains_on_dead_end :
  wf_values dead_end /\
  backtrack 82 [] dead_end = Ret (BT_fail, [], dead_end) /\
  (dead_end = dead_end /\ @nil (cell * ascii) = []).
Proof.
  assert (Hwf : wf_values dead_end) by (vm_compute; reflexivity).
  assert (Hrun : backtrack 82 [] dead_end = Ret (BT_fail, [], dead_end))
    by (vm_compute; reflexivity).
  split; [exact Hwf|]. split; [exact Hrun|].
  exact (backtrack_fail_restores_domains insertion_order 82 [] [] dead_end dead_end Hwf Hrun).
Defined.

(** C9 at the arc (A2, A1) of the board of [grid_one_clue]. *)
Lemma revise_removes_iff_neighbor_within_singleton_on_one_clue :
  In (py "A1") (neighbors (py "A2")) /\
  let vals := board_of grid_one_clue in
  let revised := fst (revise vals (py "A2") (py "A1")) in
  let vals' := snd (revise vals (py "A2") (py "A1")) in
  get vals' (py "A2") =
    filter (fun x => negb (forallb (fun y => Ascii.eqb y x) (get vals (py "A1"))))
           (get vals (py "A2")) /\
  (forall x, In x (get vals (py "A2")) ->
     (~ In x (get vals' (py "A2")) <-> (forall y, In y (get vals (py "A1")) -> y = x))) /\
  (forall x, In x (get vals' (py "A2")) -> In x (get vals (py "A2"))) /\
  (forall k, k <> py "A2" -> get vals' k = get vals k) /\
  (revised = true <-> get vals' (py "A2") <> get vals (py "A2")) /\
  (get vals (py "A1") = [] -> get vals' (py "A2") = []).
Proof.
  assert (Hn : In (py "A1") (neighbors (py "A2")))
    by (apply mem_str_true; vm_compute; reflexivity).
  split; [exact Hn|].
  exact (revise_removes_iff_neighbor_within_singleton insertion_order
           (board_of grid_one_clue) (py "A2") (py "A1") Hn).
Defined.

(** C10 at [emptied]: a board with an emptied domain is reported solved. *)
Lemma solved_accepts_emptied_board :
  (exists c, In c variables /\ get emptied c = []) /\
  (forall c, In c variables -> length (get emptied c) <= 1) /\
  solved emptied = true.
Proof.
  assert (He : exists c, In c variables /\ get emptied c = []).
  { exists (py "A1"). split; [apply mem_str_true|]; vm_compute; reflexivity. }
  assert (Hle : forall c, In c variables -> length (get emptied c) <= 1).
  { apply solved_true. vm_compute. reflexivity. }
  split; [exact He|]. split; [exact Hle|].
  exact (proj1 (proj2 (solved_iff_no_domain_above_one insertion_order emptied) He Hle)).
Defined.

(** * Further properties of the code *)

(** ** [select_next_var]: minimum remaining values, first on ties *)

Lemma py_min_fold_spec (l : dict nat) : forall best,
  let r := fold_left (fun best kv' => if snd kv' <? snd best then kv' else best) l best in
  (r = best /\ forall kv, In kv l -> snd best <= snd kv) \/
  (exists l1 l2, l = l1 ++ r :: l2 /\ snd r < snd best /\
                 (forall kv, In kv l1 -> snd r < snd kv) /\
                 (forall kv, In kv l2 -> snd r <= snd kv)).
Proof.
  induction l as [|a l IH]; intros best; simpl.
  - left. split; [reflexivity | intros kv []].
  - destruct (snd a <? snd best) eqn:E.
    + apply Nat.ltb_lt in E. right. destruct (IH a) as [[Hr Hall]|(l1 & l2 & Hl & Hlt & H1 & H2)].
      * exists [], l. simpl in *. rewrite Hr. repeat split; auto. intros kv [].
      * exists (a :: l1), l2. simpl in *. rewrite Hl at 1. repeat split; auto; try lia.
        intros kv [<-|Hk]; [lia | now apply H1].
    + apply Nat.ltb_ge in E. destruct (IH best) as [[Hr Hall]|(l1 & l2 & Hl & Hlt & H1 & H2)].
      * left. simpl in *. split; [assumption|]. intros kv [<-|Hk]; [lia | now apply Hall].
      * right. exists (a :: l1), l2. simpl in *. rewrite Hl at 1. repeat split; auto.
        intros kv [<-|Hk]; [lia | now apply H1].
Qed.

Lemma py_min_spec (d : dict nat) k :
  py_min d = Ret k ->
  exists l1 n l2, d = l1 ++ (k, n) :: l2 /\
                  (forall kv, In kv l1 -> n < snd kv) /\
                  (forall kv, In kv l2 -> n <= snd kv).
Proof.
  destruct d as [|kv d]; simpl; [discriminate|]. intros [= <-].
  destruct (py_min_fold_spec d kv) as [[Hr Hall]|(l1 & l2 & Hl & Hlt & H1 & H2)].
  - exists [], (snd kv), d. simpl in *. rewrite Hr. destruct kv; simpl. repeat split; auto.
    intros x [].
  - simpl in *.
    set (r := fold_left (fun best kv' : cell * nat => if snd kv' <? snd best then kv' else best)
                        d kv) in *.
    exists (kv :: l1), (snd r), l2. destruct r as [rk rn] eqn:Er. simpl in *.
    rewrite Hl. repeat split; auto. intros x [<-|Hx]; [lia | now apply H1].
Qed.

Lemma select_next_var_min assignment vals Xi :
  select_next_var assignment vals = Ret Xi ->
  exists before after,
    filter (fun sqr => negb (Dict.has_key assignment sqr)) (Dict.keys vals)
      = before ++ Xi :: after /\
    (forall k, In k before -> length (get vals Xi) < length (get vals k)) /\
    (forall k, In k after -> length (get vals Xi) <= length (get vals k)).
Proof.
  unfold select_next_var. intros H. apply py_min_spec in H.
  destruct H as (l1 & n & l2 & Hd & H1 & H2).
  apply map_eq_app in Hd. destruct Hd as (u1 & u2' & Hu & Hm1 & Hm2).
  destruct u2' as [|x u2]; [discriminate|]. simpl in Hm2. injection Hm2 as -> <- Hm2.
  exists u1, u2. split; [exact Hu|]. split.
  - intros k Hk. apply (H1 (k, length (get vals k))). rewrite <- Hm1.
    apply in_map_iff. eauto.
  - intros k Hk. apply (H2 (k, length (get vals k))). rewrite <- Hm2.
    apply in_map_iff. eauto.
Qed.

(** X1: [select_next_var] returns a cell of [csp.values] that is not
    assigned and has the fewest candidates among those, the first such
    cell in the order of the dict; it raises [ValueError] (from [min])
    exactly when every cell of [csp.values] is assigned, and nothing
    else. *)
Theorem select_next_var_first_minimum (assignment : dict ascii) (vals : dict str) :
  (forall Xi, select_next_var assignment vals = Ret Xi ->
     In Xi (Dict.keys vals) /\ ~ In Xi (Dict.keys assignment) /\
     (forall k, In k (Dict.keys vals) -> ~ In k (Dict.keys assignment) ->
                length (get vals Xi) <= length (get vals k)) /\
     (exists before after,
        filter (fun sqr => negb (Dict.has_key assignment sqr)) (Dict.keys vals)
          = before ++ Xi :: after /\
        forall k, In k before -> length (get vals Xi) < length (get vals k))) /\
  (select_next_var assignment vals = Raise ValueError <->
   incl (Dict.keys vals) (Dict.keys assignment)) /\
  select_next_var assignment vals <> Raise IndexError /\
  select_next_var assignment vals <> OutOfFuel.
Proof.
  split; [|split; [|split]].
  - intros Xi H. destruct (select_next_var_in _ _ _ H) as [Hin Hfree].
    destruct (select_next_var_min _ _ _ H) as (before & after & Hf & Hb & Ha).
    split; [exact Hin|]. split; [exact Hfree|]. split; [|eauto].
    intros k Hk Hnk.
    assert (Hkf : In k (filter (fun sqr => negb (Dict.has_key assignment sqr)) (Dict.keys vals))).
    { apply filter_In. split; [assumption|]. apply negb_true_iff. now apply mem_str_false. }
    rewrite Hf in Hkf. apply in_app_or in Hkf. destruct Hkf as [Hk1|[<-|Hk2]].
    + specialize (Hb k Hk1). lia.
    + lia.
    + now apply Ha.
  - split.
    + apply select_next_var_raise.
    + intros Hi. unfold select_next_var. rewrite filter_none; [reflexivity|].
      intros k Hk. apply negb_false_iff. apply mem_str_true. now apply Hi.
  - unfold select_next_var. cbv zeta.
    match goal with |- py_min ?d <> _ => destruct d end; simpl; discriminate.
  - apply py_min_fuel.
Qed.

(** ** [backtrack] at a dead end *)

(** X2: forward checking does not fail a branch whose pruning empties a
    domain; the next call does.  When some cell that is not assigned has
    no candidate left, [backtrack] picks a cell without candidates, tries
    nothing and returns ["fail"], the assignment and the domains
    untouched. *)
Theorem backtrack_fails_at_once_on_empty_domain
    (O : SetOrder) (fuel : nat) (assignment : dict ascii) (vals : dict str) (c : cell) :
  wf_values vals -> In c variables -> ~ In c (Dict.keys assignment) -> get vals c = [] ->
  backtrack (S fuel) assignment vals = Ret (BT_fail, assignment, vals).
Proof.
  intros Hwf Hc Hfree Hempty. simpl.
  destruct (completed assignment) eqn:Ecomp.
  { apply completed_true in Ecomp. destruct Ecomp as [_ Hall]. exfalso. auto. }
  destruct (select_next_var assignment vals) as [Xi|e|] eqn:Es.
  - destruct (select_next_var_min _ _ _ Es) as (before & after & Hf & Hb & Ha).
    assert (Hcf : In c (filter (fun sqr => negb (Dict.has_key assignment sqr)) (Dict.keys vals))).
    { apply filter_In. split; [now rewrite Hwf|]. apply negb_true_iff. now apply mem_str_false. }
    assert (Hlen : length (get vals Xi) <= length (get vals c)).
    { rewrite Hf in Hcf. apply in_app_or in Hcf. destruct Hcf as [H|[<-|H]].
      - specialize (Hb c H). lia.
      - lia.
      - now apply Ha. }
    rewrite Hempty in Hlen. simpl in Hlen.
    destruct (get vals Xi) as [|x xs]; [reflexivity | simpl in Hlen; lia].
  - apply select_next_var_raise in Es. exfalso. apply Hfree, Es. now rewrite Hwf.
  - exfalso. eapply py_min_fuel. exact Es.
Qed.

Lemma backtrack_fails_at_once_on_emptied_board :
  wf_values emptied /\ In (py "A1") variables /\
  ~ In (py "A1") (Dict.keys (@nil (cell * ascii))) /\ get emptied (py "A1") = [] /\
  backtrack 1 [] emptied = Ret (BT_fail, [], emptied).
Proof.
  assert (Hwf : wf_values emptied) by (vm_compute; reflexivity).
  assert (Hc : In (py "A1") variables) by (apply mem_str_true; vm_compute; reflexivity).
  assert (He : get emptied (py "A1") = []) by (vm_compute; reflexivity).
  split; [exact Hwf|]. split; [exact Hc|]. split; [intros []|]. split; [exact He|].
  exact (backtrack_fails_at_once_on_empty_domain insertion_order 0 [] emptied (py "A1")
           Hwf Hc (fun H => H) He).
Defined.

(** ** [forward_check] *)

(** X3: after [forward_check(csp, x, Xi)] the domain of [Xi] is [x]
    alone, every neighbor of [Xi] has lost [x] and nothing else, every
    other domain is as before, and the dict keeps its keys; this does not
    depend on the order in which the neighbors are visited. *)
Theorem forward_check_prunes_neighbors_only
    (O : SetOrder) (vals : dict str) (x : ascii) (Xi : cell) :
  wf_values vals -> In Xi variables ->
  let vals' := forward_check vals x Xi in
  wf_values vals' /\
  get vals' Xi = [x] /\
  (forall n, In n (neighbors Xi) ->
     get vals' n = replace (get vals n) x /\ ~ In x (get vals' n) /\
     (forall y, y <> x -> (In y (get vals' n) <-> In y (get vals n)))) /\
  (forall k, k <> Xi -> ~ In k (neighbors Xi) -> get vals' k = get vals k).
Proof.
  intros Hwf HXi vals'. subst vals'.
  split; [now apply forward_check_wf|]. split; [|split].
  - rewrite forward_check_get. destruct (str_eq_dec Xi Xi); congruence.
  - intros n Hn.
    assert (E : get (forward_check vals x Xi) n = replace (get vals n) x).
    { rewrite forward_check_get.
      destruct (str_eq_dec n Xi) as [->|_]; [now apply neighbors_irrefl in Hn|].
      apply mem_str_true in Hn. now rewrite Hn. }
    split; [exact E|]. rewrite E. split.
    + intros H. apply replace_in in H. tauto.
    + intros y Hy. rewrite replace_in. tauto.
  - intros k Hk Hn. rewrite forward_check_get.
    destruct (str_eq_dec k Xi); [contradiction|].
    apply mem_str_false in Hn. now rewrite Hn.
Qed.

Lemma forward_check_prunes_neighbors_only_on_one_clue :
  wf_values (board_of grid_one_clue) /\ In (py "A1") variables /\
  let vals' := forward_check (board_of grid_one_clue) "1" (py "A1") in
  wf_values vals' /\
  get vals' (py "A1") = ["1"%char] /\
  (forall n, In n (neighbors (py "A1")) ->
     get vals' n = replace (get (board_of grid_one_clue) n) "1" /\
     ~ In "1"%char (get vals' n) /\
     (forall y, y <> "1"%char ->
        (In y (get vals' n) <-> In y (get (board_of grid_one_clue) n)))) /\
  (forall k, k <> py "A1" -> ~ In k (neighbors (py "A1")) ->
     get vals' k = get (board_of grid_one_clue) k).
Proof.
  assert (Hwf : wf_values (board_of grid_one_clue)) by (vm_compute; reflexivity).
  assert (Hc : In (py "A1") variables) by (apply mem_str_true; vm_compute; reflexivity).
  split; [exact Hwf|]. split; [exact Hc|].
  exact (forward_check_prunes_neighbors_only insertion_order (board_of grid_one_clue)
           "1" (py "A1") Hwf Hc).
Defined.

(** ** [completed] *)

(** X4: [completed] holds exactly when the keys of the assignment are
    the 81 cells, in whatever order they were assigned; a key that is
    not a cell, or a missing cell, makes it false.  The keys of a dict
    being distinct, it holds exactly when they are a permutation of
    [cross(rows, cols)], and there are then 81 of them. *)
Theorem completed_iff_keys_are_the_cells (assignment : dict ascii) :
  (completed assignment = true <->
   (forall k, In k (Dict.keys assignment) <-> In k variables)) /\
  (NoDup (Dict.keys assignment) ->
   (completed assignment = true <-> Permutation (Dict.keys assignment) variables) /\
   (completed assignment = true -> length (Dict.keys assignment) = 81)).
Proof.
  assert (H1 : completed assignment = true <->
               (forall k, In k (Dict.keys assignment) <-> In k variables)).
  { rewrite completed_true. split.
    - intros [Ha Hb] k. split; [apply Ha | apply Hb].
    - intros H. split; intros k Hk; now apply H. }
  split; [exact H1|]. intros Hnd.
  assert (H2 : completed assignment = true <-> Permutation (Dict.keys assignment) variables).
  { rewrite H1. split.
    - intros H. apply NoDup_Permutation; auto using variables_NoDup.
    - intros Hp k. split; apply Permutation_in; [|apply Permutation_sym]; exact Hp. }
  split; [exact H2|]. intros Hc. apply H2 in Hc.
  rewrite (Permutation_length Hc). apply variables_length.
Qed.

(** ** [write] and [set_values] *)

Lemma map_get_keys (v : dict str) :
  NoDup (Dict.keys v) -> map (get v) (Dict.keys v) = map snd v.
Proof.
  induction v as [|[k x] v IH]; simpl; intros Hnd; [reflexivity|].
  inversion Hnd as [|? ? Hk Hnd']; subst. f_equal.
  - unfold get. simpl. destruct (str_eq_dec k k); congruence.
  - rewrite <- IH by assumption. apply map_ext_in. intros k' Hk'.
    unfold get. simpl. destruct (str_eq_dec k' k) as [->|]; [contradiction | reflexivity].
Qed.

Lemma write_values (v : dict str) : wf_values v -> write v = concat (map snd v).
Proof.
  intros Hwf. rewrite write_concat, <- Hwf. f_equal. apply map_get_keys.
  rewrite Hwf. apply variables_NoDup.
Qed.

Lemma map_snd_combine {A B} (l : list A) : forall (s : list B),
  map snd (combine l s) = firstn (length l) s.
Proof.
  induction l as [|a l IH]; intros [|b s]; simpl; try reflexivity. f_equal. apply IH.
Qed.

Lemma concat_singletons {A} (l : list A) : concat (map (fun x => [x]) l) = l.
Proof. induction l as [|a l IH]; simpl; [reflexivity|]. now rewrite IH. Qed.

(** X5: on a dict of domains keyed by the 81 cells, [write] is the
    concatenation of the domains in the order of the dict, so its length
    is the number of candidates left on the board: 81 exactly when that
    number is 81, as when every cell has one candidate. *)
Theorem write_length_is_number_of_candidates (vals : dict str) :
  wf_values vals ->
  write vals = concat (map snd vals) /\
  length (write vals) = candidates vals /\
  ((forall c, In c variables -> length (get vals c) = 1) -> length (write vals) = 81).
Proof.
  intros Hwf. split; [now apply write_values|]. split.
  - rewrite write_values by assumption. unfold candidates.
    rewrite length_concat, map_map. reflexivity.
  - intros H. rewrite write_concat, length_concat_map.
    rewrite list_sum_all_ones by exact H. apply variables_length.
Qed.

Lemma write_length_is_number_of_candidates_on_dead_end :
  wf_values dead_end /\
  write dead_end = concat (map snd dead_end) /\
  length (write dead_end) = candidates dead_end /\
  ((forall c, In c variables -> length (get dead_end c) = 1) -> length (write dead_end) = 81).
Proof.
  assert (Hwf : wf_values dead_end) by (vm_compute; reflexivity).
  split; [exact Hwf|]. exact (write_length_is_number_of_candidates dead_end Hwf).
Defined.

(** X6: [write] undoes [set_values] on a grid without blanks: the board
    built from a grid of at least 81 characters, none of the first 81
    being '0', is written back as these 81 characters; with blanks, each
    '0' comes back as "123456789". *)
Theorem write_after_set_values (grid : str) :
  81 <= length grid ->
  exists board,
    CSP grid = Ret board /\
    write board = concat (map initial_domain (firstn 81 grid)) /\
    (~ In "0"%char (firstn 81 grid) -> write board = firstn 81 grid).
Proof.
  intros Hl. rewrite CSP_spec.
  assert (E : (length grid <? 81) = false) by (apply Nat.ltb_ge; exact Hl).
  rewrite E. eexists. split; [reflexivity|].
  set (board := map (fun p : cell * ascii => (fst p, initial_domain (snd p)))
                    (combine variables grid)).
  assert (Hwf : wf_values board).
  { unfold wf_values, board. apply keys_combine. now rewrite variables_length. }
  assert (Hw : write board = concat (map initial_domain (firstn 81 grid))).
  { rewrite write_values by assumption. unfold board. f_equal. rewrite map_map.
    transitivity (map initial_domain (map snd (combine variables grid)));
      [rewrite map_map; reflexivity|].
    rewrite map_snd_combine, variables_length. reflexivity. }
  split; [exact Hw|]. intros Hz. rewrite Hw.
  rewrite <- (concat_singletons (firstn 81 grid)) at 2. f_equal.
  apply map_ext_in. intros ch Hch. unfold initial_domain.
  destruct (Ascii.eqb ch "0") eqn:Ee; [|reflexivity].
  apply Ascii.eqb_eq in Ee. subst. contradiction.
Qed.

Lemma write_after_set_values_on_long_grid :
  81 <= length grid_too_long /\
  exists board,
    CSP grid_too_long = Ret board /\
    write board = concat (map initial_domain (firstn 81 grid_too_long)) /\
    (~ In "0"%char (firstn 81 grid_too_long) -> write board = firstn 81 grid_too_long).
Proof.
  assert (Hl : 81 <= length grid_too_long) by (vm_compute; lia).
  split; [exact Hl|]. exact (write_after_set_values grid_too_long Hl).
Defined.

(** ** [cross] and the units *)

(** X7: [cross(X, Y)] lists every pair of a character of [X] and a
    character of [Y] once, row by row: it has [len(X) * len(Y)] entries,
    the entry at [i * len(Y) + j] is [X[i] + Y[j]], and no entry repeats
    when no character of [X] or of [Y] does. *)
Theorem cross_is_row_major (X Y : str) :
  length (cross X Y) = length X * length Y /\
  (forall c, In c (cross X Y) <-> exists x y, c = [x; y] /\ In x X /\ In y Y) /\
  (forall i j x y, nth_error X i = Some x -> nth_error Y j = Some y ->
                   nth_error (cross X Y) (i * length Y + j) = Some [x; y]) /\
  (NoDup X -> NoDup Y -> NoDup (cross X Y)).
Proof.
  split; [|split; [|split]].
  - unfold cross. induction X as [|a X IH]; simpl; [reflexivity|].
    rewrite length_app, length_map. f_equal. exact IH.
  - intros c. unfold cross. rewrite in_flat_map. split.
    + intros (x & Hx & H). apply in_map_iff in H. destruct H as (y & <- & Hy). eauto.
    + intros (x & y & -> & Hx & Hy). exists x. split; [assumption|].
      apply in_map_iff. eauto.
  - unfold cross. induction X as [|a X IH]; intros [|i] j x y Hx Hy; simpl in *;
      try discriminate.
    + injection Hx as ->.
      rewrite nth_error_app1 by (rewrite length_map; apply nth_error_Some; congruence).
      now rewrite nth_error_map, Hy.
    + rewrite nth_error_app2 by (rewrite length_map; lia).
      rewrite length_map.
      replace (length Y + i * length Y + j - length Y) with (i * length Y + j) by lia.
      now apply IH.
  - intros HX HY. unfold cross. induction HX as [|a X Ha HX IH]; simpl; [constructor|].
    apply NoDup_app.
    + apply NoDup_map_inj; [assumption|]. intros y y' _ _ E. congruence.
    + exact IH.
    + intros c H1 H2. apply in_map_iff in H1. destruct H1 as (y & <- & Hy).
      apply in_flat_map in H2. destruct H2 as (x & Hx & H2).
      apply in_map_iff in H2. destruct H2 as (y' & E & _).
      injection E as -> _. contradiction.
Qed.

(** X8: the 27 constraint sets are units of 9 distinct cells of the
    board, every cell is in exactly 3 of them, and two cells are
    neighbors exactly when they are different cells of a same unit. *)
Theorem units_and_neighbors :
  length contraint_sets = 27 /\
  Forall (fun u => NoDup u /\ length u = 9 /\ incl u variables) contraint_sets /\
  Forall (fun c => length (sets c) = 3) variables /\
  (forall c d, In d (neighbors c) <->
               d <> c /\ exists u, In u contraint_sets /\ In c u /\ In d u).
Proof.
  split; [reflexivity|]. split; [|split].
  - apply Forall_forall. intros u Hu. destruct (units_shape u Hu) as [Hnd Hl].
    split; [exact Hnd|]. split; [exact Hl|].
    intros c Hc. eapply units_in_variables; eauto.
  - apply Forall_forall.
    assert (E : forallb (fun c => length (sets c) =? 3) variables = true)
      by (vm_compute; reflexivity).
    rewrite forallb_forall in E. intros c Hc. now apply Nat.eqb_eq, E.
  - apply in_neighbors_iff.
Qed.

(** ** [AC3]: what propagation does to the domains *)

Lemma revise_fst {O : SetOrder} v Xi Xj : fst (revise v Xi Xj) = revisable v Xi Xj.
Proof. rewrite revise_spec. reflexivity. Qed.

Lemma revise_unchanged {O : SetOrder} v Xi Xj :
  fst (revise v Xi Xj) = false -> snd (revise v Xi Xj) = v.
Proof. rewrite revise_spec. simpl. intros ->. reflexivity. Qed.

Lemma revise_incl {O : SetOrder} v Xi Xj c :
  incl (get (snd (revise v Xi Xj)) c) (get v c).
Proof.
  destruct (str_eq_dec c Xi) as [->|Hne].
  - rewrite revise_domain. intros x Hx. apply filter_In in Hx. tauto.
  - rewrite revise_others by assumption. apply incl_refl.
Qed.

Lemma revise_true_nonempty {O : SetOrder} v Xi Xj :
  fst (revise v Xi Xj) = true -> get v Xi <> [].
Proof.
  rewrite revise_fst. unfold revisable. intros H E. rewrite E in H. discriminate.
Qed.

Lemma AC3_loop_shrinks {O : SetOrder} fuel : forall q v b v',
  Forall is_arc q -> AC3_loop fuel q v = Ret (b, v') ->
  Dict.keys v' = Dict.keys v /\
  (forall c, incl (get v' c) (get v c)) /\
  (b = true -> forall c, get v c <> [] -> get v' c <> []) /\
  (b = false -> exists c, In c variables /\ get v' c = [] /\ get v c <> []).
Proof.
  induction fuel as [|fuel IH]; intros q v b v' Hq; simpl; [discriminate|].
  destruct q as [|[Xi Xj] q].
  { intros [= <- <-]. split; [reflexivity|]. split; [intros c; apply incl_refl|].
    split; [auto | discriminate]. }
  inversion Hq as [|? ? [HXi HXj] Hq']; subst. simpl in HXi, HXj.
  pose proof (revise_keys v Xi Xj) as Hk.
  pose proof (fun c => revise_incl v Xi Xj c) as Hi.
  pose proof (revise_others v Xi Xj) as Ho.
  pose proof (revise_true_nonempty v Xi Xj) as Hne.
  pose proof (revise_unchanged v Xi Xj) as Hu.
  destruct (revise v Xi Xj) as [revised v1]. simpl in Hk, Hi, Ho, Hne, Hu.
  assert (Hstep : forall b0 q0, AC3_loop fuel q0 v1 = Ret (b0, v') -> Forall is_arc q0 ->
                  (revised = true -> get v1 Xi <> []) ->
                  Dict.keys v' = Dict.keys v /\
                  (forall c, incl (get v' c) (get v c)) /\
                  (b0 = true -> forall c, get v c <> [] -> get v' c <> []) /\
                  (b0 = false -> exists c, In c variables /\ get v' c = [] /\ get v c <> [])).
  { intros b0 q0 E Hq0 Hkeep. destruct (IH _ _ _ _ Hq0 E) as (K & I & T & F).
    split; [congruence|]. split; [intros c; eapply incl_tran; [apply I | apply Hi]|].
    split.
    - intros Hb c Hc. apply T; [assumption|].
      destruct (str_eq_dec c Xi) as [->|Hcx]; [|now rewrite Ho].
      destruct revised; [now apply Hkeep|].
      now rewrite (Hu eq_refl).
    - intros Hb. destruct (F Hb) as (c & Hc & He & Hn). exists c.
      split; [assumption|]. split; [assumption|].
      intros E1. apply Hn. specialize (Hi c). rewrite E1 in Hi.
      destruct (get v1 c) as [|x l]; [reflexivity|]. exfalso. apply (Hi x). now left. }
  destruct revised.
  - destruct (length (get v1 Xi) =? 0) eqn:El.
    + intros [= <- <-]. apply length_zero_iff in El.
      split; [assumption|]. split; [assumption|]. split; [discriminate|].
      intros _. exists Xi. auto.
    + intros E. apply (Hstep b _ E).
      * apply Forall_app. split; [assumption | now apply requeue_is_arc].
      * intros _ Hn. rewrite Hn in El. discriminate.
  - intros E. apply (Hstep b _ E); [assumption | discriminate].
Qed.

(** X9: [AC3] only takes candidates away.  It keeps the keys of the
    dict and every domain at return is within the domain at entry; when
    it returns [True] no domain that had a candidate has been emptied;
    when it returns [False] some cell that had a candidate has none
    left. *)
Theorem AC3_only_removes_candidates (O : SetOrder) (vals : dict str) :
  exists b vals',
    AC3 vals = Ret (b, vals') /\
    Dict.keys vals' = Dict.keys vals /\
    (forall c, incl (get vals' c) (get vals c)) /\
    (b = true -> forall c, get vals c <> [] -> get vals' c <> []) /\
    (b = false -> exists c, In c variables /\ get vals' c = [] /\ get vals c <> []).
Proof.
  destruct (AC3_terminates vals) as (b & vals' & E). exists b, vals'.
  split; [exact E|]. unfold AC3 in E.
  eapply AC3_loop_shrinks; [|exact E]. apply constraints_is_arc.
Qed.

(** *** The result of a successful propagation is arc consistent *)

Lemma forallb_false_exists {A} (f : A -> bool) l :
  forallb f l = false -> exists y, In y l /\ f y = false.
Proof.
  induction l as [|a l IH]; simpl; [discriminate|].
  destruct (f a) eqn:E; simpl.
  - intros H. destruct (IH H) as (y & Hy & Hf). eauto.
  - intros _. eauto.
Qed.

Lemma existsb_false_forall {A} (f : A -> bool) l :
  existsb f l = false <-> (forall x, In x l -> f x = false).
Proof.
  induction l as [|a l IH]; simpl.
  - split; [intros _ x [] | reflexivity].
  - rewrite orb_false_iff, IH. split.
    + intros [Ha Hl] x [<-|Hx]; auto.
    + intros H. split; [apply H; now left | intros x Hx; apply H; now right].
Qed.

Lemma revisable_false_iff v X Y :
  In Y (neighbors X) ->
  (revisable v X Y = false <->
   forall x, In x (get v X) -> exists y, In y (get v Y) /\ y <> x).
Proof.
  intros Hn. unfold revisable. rewrite existsb_false_forall. split.
  - intros H x Hx. specialize (H x Hx). rewrite AC_constraint_check_neighbor in H by assumption.
    apply forallb_false_exists in H. destruct H as (y & Hy & Hf).
    exists y. split; [assumption|]. now apply Ascii.eqb_neq.
  - intros H x Hx. destruct (H x Hx) as (y & Hy & Hne).
    rewrite AC_constraint_check_neighbor by assumption.
    destruct (forallb (fun y0 => Ascii.eqb y0 x) (get v Y)) eqn:E; [|reflexivity].
    rewrite forallb_forall in E. specialize (E y Hy). apply Ascii.eqb_eq in E. contradiction.
Qed.

Lemma AC_constraint_check_ext v1 v2 x Xi Xj :
  get v1 Xj = get v2 Xj -> AC_constraint_check v1 x Xi Xj = AC_constraint_check v2 x Xi Xj.
Proof. unfold AC_constraint_check. intros ->. reflexivity. Qed.

Lemma existsb_filter_negb {A} (f : A -> bool) l :
  existsb f (filter (fun x => negb (f x)) l) = false.
Proof.
  apply existsb_false_forall. intros x Hx. apply filter_In in Hx.
  destruct Hx as [_ Hx]. now apply negb_true_iff in Hx.
Qed.

(** A second [revise] on the same arc finds nothing to take out. *)
Lemma revise_settles {O : SetOrder} v Xi Xj :
  revisable (snd (revise v Xi Xj)) Xi Xj = false.
Proof.
  rewrite revise_spec. simpl.
  destruct (existsb (fun x => AC_constraint_check v x Xi Xj) (get v Xi)) eqn:E; [|exact E].
  unfold revisable. rewrite get_set_eq.
  rewrite (existsb_ext _ (fun x => AC_constraint_check v x Xi Xj))
    by (intros x; apply AC_constraint_check_set).
  apply existsb_filter_negb.
Qed.

(** A revision of [Xi] does not unsettle an arc that does not end in [Xi]. *)
Lemma revise_keeps_settled {O : SetOrder} v Xi Xj X Y :
  Y <> Xi -> revisable v X Y = false -> revisable (snd (revise v Xi Xj)) X Y = false.
Proof.
  intros HY H. unfold revisable in *. rewrite existsb_false_forall in *.
  intros x Hx. apply revise_incl in Hx.
  rewrite (AC_constraint_check_ext (snd (revise v Xi Xj)) v); [now apply H|].
  now apply revise_others.
Qed.

Lemma AC3_loop_arc_consistent {O : SetOrder} fuel : forall q v v',
  (forall X Y, In X variables -> In Y (neighbors X) ->
               In (X, Y) q \/ revisable v X Y = false) ->
  AC3_loop fuel q v = Ret (true, v') ->
  forall X Y, In X variables -> In Y (neighbors X) -> revisable v' X Y = false.
Proof.
  induction fuel as [|fuel IH]; intros q v v' Hinv; simpl; [discriminate|].
  destruct q as [|[Xi Xj] q].
  { intros [= <-] X Y HX HY. destruct (Hinv X Y HX HY) as [[]|H]. exact H. }
  pose proof (revise_fst v Xi Xj) as Hf.
  pose proof (revise_unchanged v Xi Xj) as Hu.
  pose proof (revise_settles v Xi Xj) as Hs.
  pose proof (fun X Y => revise_keeps_settled v Xi Xj X Y) as Hk.
  destruct (revise v Xi Xj) as [revised v1]. simpl in Hf, Hu, Hs, Hk.
  destruct revised.
  - destruct (length (get v1 Xi) =? 0); [discriminate|].
    apply IH. intros X Y HX HY.
    destruct (str_eq_dec Y Xi) as [->|HYne].
    + left. apply in_or_app. right. apply requeue_in. exists X.
      split; [reflexivity | now apply neighbors_sym].
    + destruct (Hinv X Y HX HY) as [[E|Hq]|Hst].
      * injection E as <- <-. right. exact Hs.
      * left. apply in_or_app. now left.
      * right. now apply Hk.
  - rewrite (Hu eq_refl). apply IH. intros X Y HX HY.
    destruct (Hinv X Y HX HY) as [[E|Hq]|Hst]; auto.
    injection E as <- <-. right. now rewrite <- Hf.
Qed.

Lemma AC3_loop_settled {O : SetOrder} v q : forall fuel,
  length q < fuel ->
  (forall a, In a q -> revisable v (fst a) (snd a) = false) ->
  AC3_loop fuel q v = Ret (true, v).
Proof.
  induction q as [|[Xi Xj] q IH]; intros [|fuel] Hf Hq; try (simpl in Hf; lia);
    [reflexivity|].
  cbn [AC3_loop].
  pose proof (revise_fst v Xi Xj) as Hfst.
  pose proof (revise_unchanged v Xi Xj) as Hu.
  pose proof (Hq (Xi, Xj) (or_introl eq_refl)) as Hst. cbn [fst snd] in Hst.
  rewrite Hst in Hfst.
  destruct (revise v Xi Xj) as [revised v1]. simpl in Hfst, Hu. subst revised.
  rewrite (Hu eq_refl). apply IH; [simpl in Hf; lia|].
  intros a Ha. apply Hq. now right.
Qed.

(** X10: when [AC3] returns [True] the domains are arc consistent:
    on every arc (X, Y) of the board each candidate of X leaves Y a
    candidate different from it.  Running [AC3] again on these domains
    returns [True] and changes nothing. *)
Theorem AC3_true_result_is_arc_consistent (O : SetOrder) (vals : dict str) :
  exists b vals',
    AC3 vals = Ret (b, vals') /\
    (b = true -> arc_consistent vals' /\ AC3 vals' = Ret (true, vals')).
Proof.
  destruct (AC3_terminates vals) as (b & vals' & E). exists b, vals'.
  split; [exact E|]. intros ->. unfold AC3 in E.
  assert (Hst : forall X Y, In X variables -> In Y (neighbors X) ->
                            revisable vals' X Y = false).
  { eapply AC3_loop_arc_consistent; [|exact E].
    intros X Y HX HY. left. apply set_iter_in.
    apply (proj2 (in_constraints_iff X Y)). auto. }
  split.
  - intros X Y HX HY. apply revisable_false_iff; auto.
  - unfold AC3. cbv zeta. apply AC3_loop_settled; [apply Nat.lt_succ_r, Nat.le_add_r|].
    intros [X Y] Ha. apply (proj1 (set_iter_in _ _)) in Ha.
    apply (proj1 (in_constraints_iff X Y)) in Ha. destruct Ha. now apply Hst.
Qed.

(** X11: propagation is sound.  When the domains contain a solution,
    [AC3] returns [True] and the domains it leaves still contain that
    solution: no digit of any solution is ever taken out. *)
Theorem AC3_keeps_every_solution (O : SetOrder) (vals : dict str) (sol : cell -> ascii) :
  wf_values vals ->
  (forall c, In c variables -> In (sol c) (get vals c)) ->
  (forall c d, In d (neighbors c) -> sol c <> sol d) ->
  exists vals',
    AC3 vals = Ret (true, vals') /\
    (forall c, In c variables -> In (sol c) (get vals' c)).
Proof.
  intros Hwf Hin Hdiff.
  assert (Hk : keeps_solution vals sol vals).
  { split; [assumption|]. split; [assumption|]. intros c _. apply incl_refl. }
  destruct (AC3_keeps_solution vals sol Hdiff vals Hk) as (vals' & E & _ & Hsol & _).
  eauto.
Qed.

(** ** [BTS]: search is sound and complete *)

Lemma BTS_true_final {O : SetOrder} v a' v' :
  wf_values v -> BTS v = Ret (BT_True, a', v') ->
  (forall c, In c variables ->
     exists x, get v' c = [x] /\ In x (get v c) /\ Dict.lookup a' c = Some x) /\
  (forall c d x y, Dict.lookup a' c = Some x -> Dict.lookup a' d = Some y ->
                   In d (neighbors c) -> x <> y).
Proof.
  intros Hwf E. unfold BTS in E.
  assert (Hc : consistent v [] v).
  { split; [assumption|]. split; [discriminate|]. split; [discriminate|].
    intros c _. apply incl_refl. }
  destruct (backtrack_success v _ _ _ _ _ Hc E) as [(Hwf' & Hval & Hdif & Hin) Hcomp].
  apply completed_true in Hcomp. destruct Hcomp as [_ Hall].
  split; [|exact Hdif].
  intros c Hcv. destruct (DictFacts.in_keys_lookup a' c (Hall c Hcv)) as [x Hx].
  exists x. split; [now apply Hval|]. split; [|assumption].
  apply (Hin c Hcv). rewrite (Hval c x Hx). now left.
Qed.

Lemma BTS_true_has_solution {O : SetOrder} v a' v' :
  wf_values v -> BTS v = Ret (BT_True, a', v') -> has_solution_within v.
Proof.
  intros Hwf E. destruct (BTS_true_final v a' v' Hwf E) as [Hfin Hdif].
  exists (fun c => match Dict.lookup a' c with Some x => x | None => "0"%char end).
  split.
  - intros c Hc. destruct (Hfin c Hc) as (x & _ & Hx & Hl). now rewrite Hl.
  - intros c d Hd. destruct (neighbors_in_variables c d Hd) as [Hc Hd'].
    destruct (Hfin c Hc) as (x & _ & _ & Hlx). destruct (Hfin d Hd') as (y & _ & _ & Hly).
    rewrite Hlx, Hly. eapply Hdif; eauto.
Qed.

Lemma BTS_total {O : SetOrder} v :
  wf_values v -> exists r a' v', BTS v = Ret (r, a', v').
Proof.
  intros Hwf.
  assert (Hfuel : 81 < length (Dict.keys (@nil (cell * ascii))) + S (length variables))
    by (rewrite variables_length; simpl; lia).
  destruct (backtrack_total (S (length variables)) [] v Hwf (NoDup_nil _) (incl_nil_l _) Hfuel)
    as [[[r a'] v'] E].
  exists r, a', v'. exact E.
Qed.

(** X12: started on domains keyed by the 81 cells, [BTS] returns, and
    it returns [True] exactly when the domains contain a solution.  On
    [True] every cell is left with one digit, taken from its domain at
    entry and equal to the digit assigned to it, and neighbors have
    different digits; on ["fail"] the domains are those at entry. *)
Theorem BTS_true_iff_solution_within (O : SetOrder) (vals : dict str) :
  wf_values vals ->
  exists r assignment vals',
    BTS vals = Ret (r, assignment, vals') /\
    (r = BT_True <-> has_solution_within vals) /\
    (r = BT_True ->
       (forall c, In c variables ->
          exists x, get vals' c = [x] /\ In x (get vals c) /\
                    Dict.lookup assignment c = Some x) /\
       (forall c d, In d (neighbors c) -> get vals' c <> get vals' d)) /\
    (r = BT_fail -> vals' = vals /\ assignment = []).
Proof.
  intros Hwf. destruct (BTS_total vals Hwf) as (r & a' & v' & E).
  exists r, a', v'. split; [exact E|]. split; [|split].
  - split.
    + intros ->. eapply BTS_true_has_solution; eauto.
    + intros (sol & Hin & Hdiff).
      assert (Hfuel : 81 < length (Dict.keys (@nil (cell * ascii))) + S (length variables))
        by (rewrite variables_length; simpl; lia).
      assert (Hfol : follows sol [] vals) by (split; [assumption | discriminate]).
      destruct (backtrack_finds sol Hdiff (S (length variables)) [] vals
                  Hwf (NoDup_nil _) (incl_nil_l _) Hfol Hfuel) as (a2 & v2 & E2).
      unfold BTS in E. rewrite E2 in E. now injection E as <- _ _.
  - intros ->. destruct (BTS_true_final vals a' v' Hwf E) as [Hfin Hdif].
    split; [exact Hfin|]. intros c d Hd.
    destruct (neighbors_in_variables c d Hd) as [Hc Hd'].
    destruct (Hfin c Hc) as (x & Ex & _ & Hlx). destruct (Hfin d Hd') as (y & Ey & _ & Hly).
    rewrite Ex, Ey. intros [= Exy]. exact (Hdif c d x y Hlx Hly Hd Exy).
  - intros ->. unfold BTS in E. apply backtrack_restores in E; [|assumption].
    destruct E as [-> ->]. auto.
Qed.

Lemma BTS_true_iff_solution_within_on_dead_end :
  wf_values dead_end /\
  exists r assignment vals',
    BTS dead_end = Ret (r, assignment, vals') /\
    (r = BT_True <-> has_solution_within dead_end) /\
    (r = BT_True ->
       (forall c, In c variables ->
          exists x, get vals' c = [x] /\ In x (get dead_end c) /\
                    Dict.lookup assignment c = Some x) /\
       (forall c d, In d (neighbors c) -> get vals' c <> get vals' d)) /\
    (r = BT_fail -> vals' = dead_end /\ assignment = []).
Proof.
  assert (Hwf : wf_values dead_end) by (vm_compute; reflexivity).
  split; [exact Hwf|]. exact (BTS_true_iff_solution_within insertion_order dead_end Hwf).
Defined.

Lemma example_board_keeps_solution :
  CSP grid_example = Ret (board_of grid_example) /\
  wf_values (board_of grid_example) /\
  (forall c, In c variables ->
     In (board_at solution_example c) (get (board_of grid_example) c)) /\
  (forall c d, In d (neighbors c) -> board_at solution_example c <> board_at solution_example d).
Proof.
  assert (Hcsp : CSP grid_example = Ret (board_of grid_example)) by (vm_compute; reflexivity).
  assert (Hs : valid_solution solution_example)
    by (apply valid_solutionb_correct; vm_compute; reflexivity).
  assert (He : extends_clues grid_example solution_example)
    by (apply extends_cluesb_correct; vm_compute; reflexivity).
  split; [exact Hcsp|]. split; [|split].
  - exact (board_wf grid_example _ grid_example_is_puzzle Hcsp).
  - exact (sol_in_board grid_example _ grid_example_is_puzzle Hcsp solution_example Hs He).
  - exact (sol_differ solution_example Hs).
Qed.

(** X10 and X11 at the board of the example puzzle. *)
Lemma AC3_true_result_is_arc_consistent_on_example :
  exists vals',
    AC3 (board_of grid_example) = Ret (true, vals') /\
    arc_consistent vals' /\ AC3 vals' = Ret (true, vals').
Proof.
  destruct example_board_keeps_solution as (_ & Hwf & Hin & Hdiff).
  assert (Hk : keeps_solution (board_of grid_example) (board_at solution_example)
                              (board_of grid_example)).
  { split; [assumption|]. split; [assumption|]. intros c _. apply incl_refl. }
  destruct (AC3_keeps_solution _ _ Hdiff _ Hk) as (v1 & E1 & _).
  destruct (AC3_true_result_is_arc_consistent insertion_order (board_of grid_example))
    as (b & v' & E & H).
  rewrite E1 in E. injection E as <- <-.
  exists v1. split; [exact E1|]. exact (H eq_refl).
Defined.

Lemma AC3_keeps_every_solution_on_example :
  wf_values (board_of grid_example) /\
  (forall c, In c variables ->
     In (board_at solution_example c) (get (board_of grid_example) c)) /\
  (forall c d, In d (neighbors c) -> board_at solution_example c <> board_at solution_example d) /\
  exists vals',
    AC3 (board_of grid_example) = Ret (true, vals') /\
    (forall c, In c variables -> In (board_at solution_example c) (get vals' c)).
Proof.
  destruct example_board_keeps_solution as (_ & Hwf & Hin & Hdiff).
  split; [exact Hwf|]. split; [exact Hin|]. split; [exact Hdiff|].
  exact (AC3_keeps_every_solution insertion_order (board_of grid_example)
           (board_at solution_example) Hwf Hin Hdiff).
Defined.

(** ** The solver on boards that are solved, uniquely solvable, or unsolvable *)

Lemma zero_not_in_cols : ~ In "0"%char cols.
Proof. vm_compute. intuition discriminate. Qed.

Lemma valid_solution_chars s : valid_solution s -> Forall (fun ch => In ch cols) s.
Proof.
  intros Hs. pose proof Hs as [Hl _].
  assert (E : map (board_at s) variables = s).
  { apply map_index_of; [apply variables_NoDup | now rewrite variables_length]. }
  rewrite <- E. apply Forall_forall. intros ch Hch. apply in_map_iff in Hch.
  destruct Hch as (c & <- & Hc). now apply sol_digit.
Qed.

Lemma valid_solution_is_puzzle s : valid_solution s -> is_puzzle s.
Proof.
  intros Hs. split; [apply Hs|].
  eapply Forall_impl; [|apply valid_solution_chars; exact Hs]. intros ch H. now right.
Qed.

(** The board built from a solved grid: one digit per cell, the grid's. *)
Lemma solved_grid_board grid v0 :
  valid_solution grid -> CSP grid = Ret v0 ->
  forall c, In c variables -> get v0 c = [board_at grid c].
Proof.
  intros Hs Hcsp c Hc. pose proof (valid_solution_is_puzzle grid Hs) as Hp.
  destruct (cell_position grid Hp c Hc) as (i & ch & Hi & Hg & _).
  rewrite (board_get grid v0 Hp Hcsp i c ch Hi Hg).
  assert (Hch : In ch cols).
  { pose proof (valid_solution_chars grid Hs) as Hf. rewrite Forall_forall in Hf.
    apply Hf. eapply nth_error_In; eauto. }
  unfold initial_domain. destruct (Ascii.eqb ch "0") eqn:E.
  - apply Ascii.eqb_eq in E. subst. now apply zero_not_in_cols in Hch.
  - f_equal. unfold board_at.
    rewrite (index_of_nth_error variables i c variables_NoDup Hi).
    symmetry. now apply nth_error_nth.
Qed.

(** X13: given a grid that is already a valid solution, the solver
    returns that same grid, tagged AC3. *)
Theorem solver_returns_solved_grid_unchanged (O : SetOrder) (grid : str) :
  valid_solution grid -> main grid = Ret (grid ++ py " AC3").
Proof.
  intros Hs. pose proof (valid_solution_is_puzzle grid Hs) as Hp.
  destruct (CSP grid) as [v0| |] eqn:Ecsp;
    try (rewrite CSP_spec in Ecsp; destruct Hp as [Hl _]; rewrite Hl in Ecsp; discriminate).
  pose proof (solved_grid_board grid v0 Hs Ecsp) as Hsingle.
  assert (Hac : AC3 v0 = Ret (true, v0)).
  { unfold AC3. cbv zeta. apply AC3_loop_settled; [apply Nat.lt_succ_r, Nat.le_add_r|].
    intros [X Y] Ha. apply (proj1 (set_iter_in _ _)) in Ha.
    apply (proj1 (in_constraints_iff X Y)) in Ha. destruct Ha as [HX HY]. simpl.
    apply revisable_false_iff; [assumption|].
    assert (HYv : In Y variables) by now apply neighbors_in_variables in HY.
    rewrite (Hsingle X HX), (Hsingle Y HYv). intros x [<-|[]].
    exists (board_at grid Y). split; [now left|].
    intros E. exact (sol_differ grid Hs X Y HY (eq_sym E)). }
  assert (Hsolved : solved v0 = true).
  { apply solved_true. intros c Hc. rewrite (Hsingle c Hc). simpl. lia. }
  assert (Hw : write v0 = grid).
  { rewrite (write_singletons v0 (board_at grid) Hsingle).
    apply map_index_of; [apply variables_NoDup|].
    destruct Hs as [Hl _]. now rewrite variables_length. }
  unfold main. rewrite Ecsp. unfold solver. rewrite Hac, Hsolved, Hw. reflexivity.
Qed.

Lemma solver_returns_solved_grid_unchanged_on_example :
  valid_solution solution_example /\
  main solution_example = Ret (solution_example ++ py " AC3").
Proof.
  assert (Hs : valid_solution solution_example)
    by (apply valid_solutionb_correct; vm_compute; reflexivity).
  split; [exact Hs|].
  exact (solver_returns_solved_grid_unchanged insertion_order solution_example Hs).
Defined.

Lemma Ret_inj {A} (a b : A) : Ret a = Ret b -> a = b.
Proof. intros H. injection H. auto. Qed.

(** X14: a line tagged AC3 carries the only solution.  If the solver
    returns a board with the tag AC3 on a puzzle, every valid solution
    that extends the clues of the puzzle is that board. *)
Theorem AC3_tagged_board_is_the_only_solution
    (O : SetOrder) (grid s board : str) :
  is_puzzle grid -> valid_solution s -> extends_clues grid s ->
  main grid = Ret (board ++ py " AC3") ->
  board = s.
Proof.
  intros Hp Hs He Hmain.
  destruct (CSP grid) as [v0| |] eqn:Ecsp;
    try (rewrite CSP_spec in Ecsp; destruct Hp as [Hl _]; rewrite Hl in Ecsp; discriminate).
  pose proof (board_wf grid v0 Hp Ecsp) as Hwf0.
  pose proof (sol_differ s Hs) as Hdiff.
  assert (Hk0 : keeps_solution v0 (board_at s) v0).
  { split; [assumption|]. split.
    - intros c Hc. eapply sol_in_board; eauto.
    - intros c _. apply incl_refl. }
  destruct (AC3_keeps_solution v0 (board_at s) Hdiff v0 Hk0) as (v1 & Eac & Hwf1 & Hsol1 & Hin1).
  unfold main in Hmain. rewrite Ecsp in Hmain. unfold solver in Hmain. rewrite Eac in Hmain.
  destruct (solved v1) eqn:Esol.
  - apply Ret_inj, app_inv_tail in Hmain. subst board.
    rewrite solved_true in Esol.
    rewrite (write_singletons v1 (board_at s)).
    + apply map_index_of; [apply variables_NoDup|].
      destruct Hs as [Hl _]. now rewrite variables_length.
    + intros c Hc. apply single_candidate; auto.
  - exfalso. destruct (BTS v1) as [[[r a'] v2]| |]; try discriminate.
    apply Ret_inj in Hmain.
    change (py " BTS") with ([" "; "B"; "T"] ++ ["S"])%char in Hmain.
    change (py " AC3") with ([" "; "A"; "C"] ++ ["3"])%char in Hmain.
    rewrite !app_assoc in Hmain. apply app_inj_tail in Hmain.
    destruct Hmain as [_ Hlast]. discriminate.
Qed.

Lemma AC3_tagged_board_is_the_only_solution_on_one_blank :
  is_puzzle grid_one_blank /\ valid_solution solution_example /\
  extends_clues grid_one_blank solution_example /\
  main grid_one_blank = Ret (solution_example ++ py " AC3") /\
  solution_example = solution_example.
Proof.
  assert (Hp : is_puzzle grid_one_blank) by (apply is_puzzleb_correct; vm_compute; reflexivity).
  assert (Hs : valid_solution solution_example)
    by (apply valid_solutionb_correct; vm_compute; reflexivity).
  assert (He : extends_clues grid_one_blank solution_example)
    by (apply extends_cluesb_correct; vm_compute; reflexivity).
  assert (Hm : main grid_one_blank = Ret (solution_example ++ py " AC3"))
    by (vm_compute; reflexivity).
  split; [exact Hp|]. split; [exact Hs|]. split; [exact He|]. split; [exact Hm|].
  exact (AC3_tagged_board_is_the_only_solution insertion_order grid_one_blank
           solution_example solution_example Hp Hs He Hm).
Defined.

(** X15: the solver reports no failure.  On domains that contain no
    solution it still returns a line: the domains [AC3] left, written
    out, tagged AC3 when no domain has two candidates or more and BTS
    otherwise, search having failed and rolled its pruning back. *)
Theorem solver_writes_domains_when_there_is_no_solution (O : SetOrder) (vals : dict str) :
  wf_values vals -> ~ has_solution_within vals ->
  exists b vals1,
    AC3 vals = Ret (b, vals1) /\
    (forall c, incl (get vals1 c) (get vals c)) /\
    solver vals = Ret (write vals1 ++ (if solved vals1 then py " AC3" else py " BTS")).
Proof.
  intros Hwf Hno. destruct (AC3_terminates vals) as (b & v1 & Eac).
  exists b, v1. split; [exact Eac|].
  assert (Hwf1 : wf_values v1) by (eapply AC3_loop_wf; [exact Hwf | exact Eac]).
  assert (Hincl : forall c, incl (get v1 c) (get vals c)).
  { unfold AC3 in Eac. eapply AC3_loop_shrinks; [|exact Eac]. apply constraints_is_arc. }
  split; [exact Hincl|]. unfold solver. rewrite Eac.
  destruct (solved v1); [reflexivity|].
  destruct (BTS_total v1 Hwf1) as (r & a' & v2 & Ebt). rewrite Ebt.
  destruct r.
  - exfalso. apply Hno.
    destruct (BTS_true_has_solution v1 a' v2 Hwf1 Ebt) as (sol & Hin & Hdiff).
    exists sol. split; [|exact Hdiff]. intros c Hc. apply Hincl. now apply Hin.
  - unfold BTS in Ebt. apply backtrack_restores in Ebt; [|assumption].
    destruct Ebt as [_ ->]. reflexivity.
Qed.

Lemma solver_writes_domains_when_there_is_no_solution_on_two_ones :
  wf_values (board_of grid_two_ones) /\ ~ has_solution_within (board_of grid_two_ones) /\
  exists b vals1,
    AC3 (board_of grid_two_ones) = Ret (b, vals1) /\
    (forall c, incl (get vals1 c) (get (board_of grid_two_ones) c)) /\
    solver (board_of grid_two_ones)
      = Ret (write vals1 ++ (if solved vals1 then py " AC3" else py " BTS")).
Proof.
  assert (Hwf : wf_values (board_of grid_two_ones)) by (vm_compute; reflexivity).
  assert (Hno : ~ has_solution_within (board_of grid_two_ones)).
  { intros (sol & Hin & Hdiff).
    assert (H1 : In (py "A1") variables) by (apply mem_str_true; vm_compute; reflexivity).
    assert (H2 : In (py "A2") variables) by (apply mem_str_true; vm_compute; reflexivity).
    assert (Hn : In (py "A2") (neighbors (py "A1")))
      by (apply mem_str_true; vm_compute; reflexivity).
    pose proof (Hin _ H1) as E1. pose proof (Hin _ H2) as E2.
    assert (G1 : get (board_of grid_two_ones) (py "A1") = ["1"%char]) by (vm_compute; reflexivity).
    assert (G2 : get (board_of grid_two_ones) (py "A2") = ["1"%char]) by (vm_compute; reflexivity).
    rewrite G1 in E1. rewrite G2 in E2.
    destruct E1 as [E1|[]]. destruct E2 as [E2|[]].
    apply (Hdiff _ _ Hn). congruence. }
  split; [exact Hwf|]. split; [exact Hno|].
  exact (solver_writes_domains_when_there_is_no_solution insertion_order
           (board_of grid_two_ones) Hwf Hno).
Defined.

(** X16: the script ends on every input.  On fewer than 81 characters
    it raises [IndexError] while building the board; on any other input
    it returns a line made of a board, a space and one of the tags AC3
    and BTS: neither loop goes on for ever and [min] is never given an
    empty dict. *)
Theorem main_returns_a_tagged_line_or_raises_IndexError (O : SetOrder) (grid : str) :
  (length grid < 81 -> main grid = Raise IndexError) /\
  (81 <= length grid ->
   exists board tag, main grid = Ret (board ++ py " " ++ tag) /\
                     (tag = py "AC3" \/ tag = py "BTS")).
Proof.
  unfold main. rewrite CSP_spec. split; intros Hl.
  - assert (E : (length grid <? 81) = true) by (apply Nat.ltb_lt; exact Hl).
    now rewrite E.
  - assert (E : (length grid <? 81) = false) by (apply Nat.ltb_ge; exact Hl).
    rewrite E.
    set (v0 := map (fun p => (fst p, initial_domain (snd p))) (combine variables grid)).
    assert (Hwf0 : wf_values v0).
    { unfold wf_values, v0. apply keys_combine. now rewrite variables_length. }
    unfold solver. destruct (AC3_terminates v0) as (b & v1 & Eac). rewrite Eac.
    assert (Hwf1 : wf_values v1) by (eapply AC3_loop_wf; [exact Hwf0 | exact Eac]).
    destruct (solved v1).
    + exists (write v1), (py "AC3"). split; [reflexivity | now left].
    + destruct (BTS_total v1 Hwf1) as (r & a' & v2 & Ebt). rewrite Ebt.
      exists (write v2), (py "BTS"). split; [reflexivity | now right].
Qed.

Lemma main_returns_a_tagged_line_on_long_grid :
  81 <= length grid_too_long /\
  exists board tag, main grid_too_long = Ret (board ++ py " " ++ tag) /\
                    (tag = py "AC3" \/ tag = py "BTS").
Proof.
  assert (Hl : 81 <= length grid_too_long) by (vm_compute; lia).
  split; [exact Hl|].
  exact (proj2 (main_returns_a_tagged_line_or_raises_IndexError insertion_order grid_too_long) Hl).
Defined.

(** X1 at [dead_end] with nothing assigned: A1 and A2 both have one
    candidate, the least number on the board, and A1 comes first. *)
Lemma select_next_var_first_minimum_on_dead_end :
  select_next_var [] dead_end = Ret (py "A1") /\
  In (py "A1") (Dict.keys dead_end) /\ ~ In (py "A1") (Dict.keys (@nil (cell * ascii))) /\
  (forall k, In k (Dict.keys dead_end) -> ~ In k (Dict.keys (@nil (cell * ascii))) ->
             length (get dead_end (py "A1")) <= length (get dead_end k)) /\
  (exists before after,
     filter (fun sqr => negb (Dict.has_key (@nil (cell * ascii)) sqr)) (Dict.keys dead_end)
       = before ++ py "A1" :: after /\
     forall k, In k before -> length (get dead_end (py "A1")) < length (get dead_end k)).
Proof.
  assert (E : select_next_var [] dead_end = Ret (py "A1")) by (vm_compute; reflexivity).
  split; [exact E|].
  exact (proj1 (select_next_var_first_minimum [] dead_end) (py "A1") E).
Defined.

(** ** [BT_constraint_check], [revise] off the arcs, and [backtrack] from a partial assignment *)

(** X17: [BT_constraint_check(csp, x, Xi, assignment)] is [True]
    exactly when no neighbor of [Xi] is assigned [x]; it looks at nothing
    but the entries of the neighbors of [Xi], so two assignments that
    agree on them get the same answer. *)
Theorem BT_constraint_check_iff_no_neighbor_holds_value
    (O : SetOrder) (x : ascii) (Xi : cell) (assignment : dict ascii) :
  (BT_constraint_check x Xi assignment = true <->
   (forall n, In n (neighbors Xi) -> Dict.lookup assignment n <> Some x)) /\
  (BT_constraint_check x Xi assignment = false <->
   (exists n, In n (neighbors Xi) /\ Dict.lookup assignment n = Some x)) /\
  (forall assignment2,
     (forall n, In n (neighbors Xi) -> Dict.lookup assignment2 n = Dict.lookup assignment n) ->
     BT_constraint_check x Xi assignment2 = BT_constraint_check x Xi assignment).
Proof.
  assert (H1 : forall a, BT_constraint_check x Xi a = true <->
                         (forall n, In n (neighbors Xi) -> Dict.lookup a n <> Some x)).
  { intros a. rewrite BT_constraint_check_true. split.
    - intros H n Hn E. exact (H n x Hn E eq_refl).
    - intros H n y Hn E ->. exact (H n Hn E). }
  split; [apply H1|]. split.
  - split.
    + intros Hf. unfold BT_constraint_check in Hf. apply forallb_false_exists in Hf.
      destruct Hf as (n & Hn & Hf). apply (proj1 (set_iter_in _ _)) in Hn.
      exists n. split; [assumption|].
      destruct (Dict.lookup assignment n) as [y|]; [|discriminate].
      apply negb_false_iff, Ascii.eqb_eq in Hf. now subst.
    + intros (n & Hn & E).
      destruct (BT_constraint_check x Xi assignment) eqn:Eb; [|reflexivity].
      exfalso. exact (proj1 (H1 assignment) Eb n Hn E).
  - intros a2 Hagree. apply eq_true_iff_eq.
    split; intros H; apply H1; intros n Hn; apply H1 with (n := n) in H; auto.
    + now rewrite <- Hagree.
    + now rewrite Hagree.
Qed.

(** X18: [revise] is meant for arcs.  On a pair (Xi, Xj) where [Xj]
    is not a neighbor of [Xi] (as when [Xj] is [Xi] itself) every
    candidate passes [AC_constraint_check], so [revise] empties the domain
    of [Xi] and returns [True] unless it was empty already. *)
Theorem revise_off_an_arc_empties_the_domain
    (O : SetOrder) (vals : dict str) (Xi Xj : cell) :
  ~ In Xj (neighbors Xi) ->
  get (snd (revise vals Xi Xj)) Xi = [] /\
  (fst (revise vals Xi Xj) = true <-> get vals Xi <> []) /\
  (forall k, k <> Xi -> get (snd (revise vals Xi Xj)) k = get vals k).
Proof.
  intros Hn. split; [|split].
  - rewrite revise_domain. apply filter_none. intros x _.
    now rewrite AC_constraint_check_other.
  - rewrite revise_fst. unfold revisable.
    destruct (get vals Xi) as [|x l] eqn:E; simpl.
    + split; [discriminate | congruence].
    + rewrite AC_constraint_check_other by assumption. simpl.
      split; [discriminate | reflexivity].
  - intros k Hk. now apply revise_others.
Qed.

Lemma revise_off_an_arc_empties_the_domain_on_one_clue :
  ~ In (py "A1") (neighbors (py "A1")) /\
  get (snd (revise (board_of grid_one_clue) (py "A1") (py "A1"))) (py "A1") = [] /\
  (fst (revise (board_of grid_one_clue) (py "A1") (py "A1")) = true <->
   get (board_of grid_one_clue) (py "A1") <> []) /\
  (forall k, k <> py "A1" ->
     get (snd (revise (board_of grid_one_clue) (py "A1") (py "A1"))) k
     = get (board_of grid_one_clue) k).
Proof.
  assert (Hn : ~ In (py "A1") (neighbors (py "A1")))
    by (apply mem_str_false; vm_compute; reflexivity).
  split; [exact Hn|].
  exact (revise_off_an_arc_empties_the_domain insertion_order (board_of grid_one_clue)
           (py "A1") (py "A1") Hn).
Defined.

Lemma try_values_extends {O : SetOrder} rec Xi a v :
  restores rec -> wf_values v -> In Xi variables -> ~ In Xi (Dict.keys a) ->
  (forall a1 v1 a' v', wf_values v1 -> rec a1 v1 = Ret (BT_True, a', v') ->
     forall c x, Dict.lookup a1 c = Some x -> Dict.lookup a' c = Some x) ->
  forall xs a' v', try_values rec Xi v xs a v = Ret (BT_True, a', v') ->
    forall c x, Dict.lookup a c = Some x -> Dict.lookup a' c = Some x.
Proof.
  intros Hres Hwf HXi Hfree Hrec xs a' v'.
  induction xs as [|y xs IH]; [discriminate|].
  rewrite try_values_cons by assumption.
  destruct (BT_constraint_check y Xi a); [|exact IH].
  destruct (rec (Dict.set a Xi y) (forward_check v y Xi)) as [[[[|] a2] v2]| |] eqn:E;
    try discriminate; [|exact IH].
  intros [= <- <-] c x Hc. eapply Hrec; [|exact E|].
  - now apply forward_check_wf.
  - rewrite DictFacts.lookup_set_ne; [assumption|].
    intros ->. apply Hfree. eapply DictFacts.lookup_some_in; eauto.
Qed.

Lemma backtrack_extends {O : SetOrder} fuel : forall a v a' v',
  wf_values v -> backtrack fuel a v = Ret (BT_True, a', v') ->
  forall c x, Dict.lookup a c = Some x -> Dict.lookup a' c = Some x.
Proof.
  induction fuel as [|fuel IH]; intros a v a' v' Hwf; simpl; [discriminate|].
  destruct (completed a); [now intros [= <- <-]|].
  destruct (select_next_var a v) as [Xi| |] eqn:Es; try discriminate.
  apply select_next_var_in in Es. destruct Es as [Hin Hfree]. rewrite Hwf in Hin.
  apply try_values_extends; auto using backtrack_restores.
Qed.

(** X19: search from a partial assignment.  When the assignment and
    the domains agree (an assigned cell has its digit as its domain and
    assigned neighbors differ), a call of [backtrack] that returns [True]
    leaves every given entry of the assignment as it was, has assigned
    all 81 cells, each with one digit of its domain at entry, and
    neighbors have different digits. *)
Theorem backtrack_true_completes_the_assignment
    (O : SetOrder) (fuel : nat) (assignment assignment' : dict ascii) (vals vals' : dict str) :
  consistent vals assignment vals ->
  backtrack fuel assignment vals = Ret (BT_True, assignment', vals') ->
  completed assignment' = true /\
  (forall c x, Dict.lookup assignment c = Some x -> Dict.lookup assignment' c = Some x) /\
  (forall c, In c variables ->
     exists x, Dict.lookup assignment' c = Some x /\ get vals' c = [x] /\ In x (get vals c)) /\
  (forall c d x y, Dict.lookup assignment' c = Some x -> Dict.lookup assignment' d = Some y ->
                   In d (neighbors c) -> x <> y).
Proof.
  intros Hc E. pose proof Hc as (Hwf & _).
  destruct (backtrack_success vals _ _ _ _ _ Hc E) as [(Hwf' & Hval & Hdif & Hin) Hcomp].
  split; [exact Hcomp|]. split; [now apply (backtrack_extends fuel assignment vals _ vals')|].
  split; [|exact Hdif].
  apply completed_true in Hcomp. destruct Hcomp as [_ Hall].
  intros c Hcv. destruct (DictFacts.in_keys_lookup assignment' c (Hall c Hcv)) as [x Hx].
  exists x. split; [assumption|]. split; [now apply Hval|].
  apply (Hin c Hcv). rewrite (Hval c x Hx). now left.
Qed.

(** X19 on the board of the solved example grid, with A1 assigned. *)
Lemma backtrack_true_completes_the_assignment_on_solved_board :
  exists assignment' vals',
    consistent (board_of solution_example) [(py "A1", "4"%char)] (board_of solution_example) /\
    backtrack 82 [(py "A1", "4"%char)] (board_of solution_example)
      = Ret (BT_True, assignment', vals') /\
    completed assignment' = true /\
    (forall c x, Dict.lookup [(py "A1", "4"%char)] c = Some x ->
                 Dict.lookup assignment' c = Some x) /\
    (forall c, In c variables ->
       exists x, Dict.lookup assignment' c = Some x /\ get vals' c = [x] /\
                 In x (get (board_of solution_example) c)) /\
    (forall c d x y, Dict.lookup assignment' c = Some x -> Dict.lookup assignment' d = Some y ->
                     In d (neighbors c) -> x <> y).
Proof.
  assert (Hwf : wf_values (board_of solution_example)) by (vm_compute; reflexivity).
  assert (Hg : get (board_of solution_example) (py "A1") = ["4"%char])
    by (vm_compute; reflexivity).
  assert (Hl : forall c x, Dict.lookup [(py "A1", "4"%char)] c = Some x ->
                           c = py "A1" /\ x = "4"%char).
  { intros c x H. cbn [Dict.lookup] in H.
    destruct (str_eq_dec c (py "A1")) as [->|]; [|discriminate H].
    split; [reflexivity | congruence]. }
  assert (Hc : consistent (board_of solution_example) [(py "A1", "4"%char)]
                          (board_of solution_example)).
  { split; [exact Hwf|]. split; [|split].
    - intros c x H. destruct (Hl c x H) as [-> ->]. exact Hg.
    - intros c d x y H1 H2 Hn. destruct (Hl c x H1) as [-> ->].
      destruct (Hl d y H2) as [-> ->]. now apply neighbors_irrefl in Hn.
    - intros c _. apply incl_refl. }
  assert (Hrun : exists a' v',
            backtrack 82 [(py "A1", "4"%char)] (board_of solution_example)
            = Ret (BT_True, a', v')).
  { eexists. eexists. vm_compute. reflexivity. }
  destruct Hrun as (a' & v' & E). exists a', v'.
  split; [exact Hc|]. split; [exact E|].
  exact (backtrack_true_completes_the_assignment insertion_order 82 _ a' _ v' Hc E).
Defined.
